(** * big-words: word count, frontmatter stripping and word frequency

    A shallow embedding of [src/main.ts] (the Obsidian plugin
    [WordCountPlugin] and its [WordFrequencyModal]) together with the
    properties of its text-processing functions.

    The plugin is written in TypeScript; its text functions are built from
    regular-expression literals and the built-ins [String.prototype.split],
    [String.prototype.replace], [RegExp.prototype.test],
    [String.prototype.trim], [Array.prototype.filter] and
    [Array.prototype.sort].  The built-ins are embedded after their
    ECMAScript definitions: a backtracking matcher in continuation-passing
    style, the scanning loop of [exec], and the loops of [split] and
    [replace]. *)

From Stdlib Require Import String Ascii DecimalString Decimal.
From Stdlib Require Import List NArith ZArith Arith Bool Lia.
From Stdlib Require Import Sorting.Permutation Sorting.Sorted.
Import ListNotations.

Set Implicit Arguments.

(** ** Strings

    A JavaScript string is a sequence of UTF-16 code units; the regular
    expressions of the plugin carry no [u] flag, so they too work on code
    units. *)

Definition char := N.
Bind Scope N_scope with char.
Definition jsstring := list char.

(** ASCII literals, written as Rocq strings. *)
Definition u (s : string) : jsstring :=
  map N_of_ascii (list_ascii_of_string s).

Definition LF : char := 10%N.
Definition CR : char := 13%N.

Definition char_eqb (a b : char) : bool := N.eqb a b.

Fixpoint jsstring_eqb (a b : jsstring) : bool :=
  match a, b with
  | [], [] => true
  | x :: a', y :: b' => char_eqb x y && jsstring_eqb a' b'
  | _, _ => false
  end.

Definition inRange (lo hi c : char) : bool := (N.leb lo c && N.leb c hi)%bool.

(** ** Character classes of ECMAScript *)

(** [LineTerminator]: LF, CR, LS, PS. *)
Definition isLineTerminator (c : char) : bool :=
  (char_eqb c 10 || char_eqb c 13 || char_eqb c 8232 || char_eqb c 8233)%N%bool.

(** [\s]: [WhiteSpace] and [LineTerminator]; TAB, LF, VT, FF, CR, SP, NBSP,
    U+1680, U+2000..U+200A, LS, PS, U+202F, U+205F, U+3000, BOM. *)
Definition isWhiteSpace (c : char) : bool :=
  (inRange 9 13 c || char_eqb c 32 || char_eqb c 160 || char_eqb c 5760
   || inRange 8192 8202 c || char_eqb c 8232 || char_eqb c 8233
   || char_eqb c 8239 || char_eqb c 8287 || char_eqb c 12288
   || char_eqb c 65279)%N%bool.

(** [.] without the [s] flag: anything but a line terminator. *)
Definition isDot (c : char) : bool := negb (isLineTerminator c).

(** The class [[a-zA-ZÀ-ÿ]] of [hasLetter]: U+0061..U+007A, U+0041..U+005A
    and U+00C0..U+00FF. *)
Definition isLetterClass (c : char) : bool :=
  (inRange 97 122 c || inRange 65 90 c || inRange 192 255 c)%N%bool.

(** ** Regular expressions

    The fragment of the pattern language that the plugin's three literals
    use: pattern characters, character classes, the assertion [^],
    sequencing, and the quantifiers [*], [+] and [*?] (a quantifier with a
    minimum count, no maximum, greedy or not). *)

Inductive regex : Type :=
| Empty : regex
| Chr (c : char) : regex
| Class (p : char -> bool) : regex
| LineStart (multiline : bool) : regex
| Seq (r1 r2 : regex) : regex
| Repeat (min : nat) (greedy : bool) (r : regex) : regex.

Definition Star (r : regex) : regex := Repeat 0 true r.
Definition LazyStar (r : regex) : regex := Repeat 0 false r.
Definition Plus (r : regex) : regex := Repeat 1 true r.

Fixpoint Str (s : jsstring) : regex :=
  match s with
  | [] => Empty
  | c :: s' => Seq (Chr c) (Str s')
  end.

(** A match state: the input split at the current end index, the part
    before it reversed.  The end index is [length (before x)]. *)
Record state : Type := mkState { before : list char; after : list char }.

Definition endIndex (x : state) : nat := length (before x).
Definition start (s : jsstring) : state := mkState [] s.
Definition input (x : state) : jsstring := rev (before x) ++ after x.

Definition advance (x : state) : state :=
  match after x with
  | [] => x
  | ch :: rest => mkState (ch :: before x) rest
  end.

Definition continuation := state -> option state.
Definition matcherT := state -> continuation -> option state.

(** [RepeatMatcher(m, min, infinity, greedy, x, c)].  An iteration that can
    be skipped ([min = 0]) and consumes nothing is rejected.  Every call
    either lowers [min] or moves the end index, so [min + length (after x)]
    bounds the depth; [fuel] is that bound plus one. *)
Fixpoint repeatMatcher (m : matcherT) (greedy : bool) (fuel : nat)
    (min : nat) (x : state) (c : continuation) : option state :=
  match fuel with
  | O => None
  | S fuel' =>
      let d : continuation := fun y =>
        if (Nat.eqb min 0 && Nat.eqb (endIndex y) (endIndex x))%bool then None
        else repeatMatcher m greedy fuel' (Nat.pred min) y c in
      if negb (Nat.eqb min 0) then m x d
      else if greedy then
        match m x d with
        | Some z => Some z
        | None => c x
        end
      else
        match c x with
        | Some z => Some z
        | None => m x d
        end
  end.

Fixpoint matcher (r : regex) (x : state) (c : continuation) : option state :=
  match r with
  | Empty => c x
  | Chr ch =>
      match after x with
      | a :: rest => if char_eqb a ch then c (mkState (a :: before x) rest) else None
      | [] => None
      end
  | Class p =>
      match after x with
      | a :: rest => if p a then c (mkState (a :: before x) rest) else None
      | [] => None
      end
  | LineStart multiline =>
      match before x with
      | [] => c x
      | a :: _ => if (multiline && isLineTerminator a)%bool then c x else None
      end
  | Seq r1 r2 => matcher r1 x (fun y => matcher r2 y c)
  | Repeat min greedy r' =>
      repeatMatcher (matcher r') greedy (S (min + length (after x))) min x c
  end.

(** The match of [r] anchored at the end index of [x]. *)
Definition matchAt (r : regex) (x : state) : option state := matcher r x Some.

(** [RegExpBuiltinExec] for a regular expression that is neither global
    nor sticky: [lastIndex] starts at 0 and moves one code unit at a time
    until the matcher succeeds or the end of the input is passed.  The
    result is the state where the match starts and the state where it
    ends. *)
Fixpoint execFrom (r : regex) (bef : list char) (aft : list char)
    : option (state * state) :=
  match matchAt r (mkState bef aft) with
  | Some y => Some (mkState bef aft, y)
  | None =>
      match aft with
      | [] => None
      | ch :: rest => execFrom r (ch :: bef) rest
      end
  end.

Definition exec (r : regex) (s : jsstring) : option (state * state) :=
  execFrom r [] s.

(** [RegExp.prototype.test]. *)
Definition test (r : regex) (s : jsstring) : bool :=
  match exec r s with Some _ => true | None => false end.

(** [String.prototype.replace] with a non-global regular expression and a
    replacement string without [$] patterns: the first match is replaced,
    a string without a match is returned as it is. *)
Definition replace (r : regex) (replacement : jsstring) (s : jsstring) : jsstring :=
  match exec r s with
  | None => s
  | Some (x, y) => rev (before x) ++ replacement ++ after y
  end.

(** [RegExp.prototype[Symbol.split]] without a limit.  [piece] holds the
    code units from [p] to [q] reversed, [x] is the state at [q].  A match
    that ends at [p] (an empty match right after the previous separator)
    is skipped.  [q] moves forward at least every second round, which
    bounds the loop by [2 * size + 1] rounds. *)
Fixpoint splitLoop (r : regex) (fuel : nat) (piece : list char) (x : state)
    : list jsstring :=
  match fuel with
  | O => []
  | S fuel' =>
      match after x with
      | [] => [rev piece]
      | ch :: _ =>
          match matchAt r x with
          | None => splitLoop r fuel' (ch :: piece) (advance x)
          | Some y =>
              if (Nat.eqb (endIndex y) (endIndex x)
                  && match piece with [] => true | _ => false end)%bool
              then splitLoop r fuel' (ch :: piece) (advance x)
              else rev piece :: splitLoop r fuel' [] y
          end
      end
  end.

Definition split (r : regex) (s : jsstring) : list jsstring :=
  match s with
  | [] => match matchAt r (start []) with
          | Some _ => []
          | None => [[]]
          end
  | _ => splitLoop r (S (2 * length s)) [] (start s)
  end.

(** [String.prototype.trim]. *)
Fixpoint trimStart (s : jsstring) : jsstring :=
  match s with
  | [] => []
  | c :: s' => if isWhiteSpace c then trimStart s' else s
  end.

Definition trim (s : jsstring) : jsstring := rev (trimStart (rev (trimStart s))).

(** Decimal rendering of a non-negative integer, as [Number::toString]
    and template literals give it. *)
Definition numberToString (n : N) : jsstring :=
  u (NilEmpty.string_of_uint (N.to_uint n)).

(** ** Ordinary objects used as maps

    [getWordFrequency] starts from the object literal [{}], whose prototype
    is [Object.prototype], and reads and writes it with computed keys.  A
    read of a key that is not an own property continues on the prototype;
    so does a write, which matters for the accessor [__proto__]. *)

(** What the plugin stores: the TypeScript type says [number], and
    [(x || 0) + 1] gives a number or, when [x] is not a number, a string. *)
Inductive prim : Type :=
| Num (n : N)
| Text (s : jsstring).

(** What a read gives. *)
Inductive value : Type :=
| Undefined
| Prim (p : prim)
| BuiltinFunction (name : jsstring)
| ObjectPrototype.

(** Own properties, in creation order. *)
Definition object := list (jsstring * prim).

(** The function-valued data properties of [Object.prototype], each with
    the name of the function it holds. *)
Definition objectPrototypeMethods : list (jsstring * jsstring) :=
  [ (u "constructor", u "Object");
    (u "__defineGetter__", u "__defineGetter__");
    (u "__defineSetter__", u "__defineSetter__");
    (u "hasOwnProperty", u "hasOwnProperty");
    (u "__lookupGetter__", u "__lookupGetter__");
    (u "__lookupSetter__", u "__lookupSetter__");
    (u "isPrototypeOf", u "isPrototypeOf");
    (u "propertyIsEnumerable", u "propertyIsEnumerable");
    (u "toString", u "toString");
    (u "valueOf", u "valueOf");
    (u "toLocaleString", u "toLocaleString") ].

Definition protoKey : jsstring := u "__proto__".

Fixpoint assoc (A : Type) (k : jsstring) (l : list (jsstring * A)) : option A :=
  match l with
  | [] => None
  | (k', v) :: l' => if jsstring_eqb k k' then Some v else assoc k l'
  end.

(** [o[k]]: the own property, else the property of [Object.prototype]. *)
Definition get (o : object) (k : jsstring) : value :=
  match assoc k o with
  | Some p => Prim p
  | None =>
      match assoc k objectPrototypeMethods with
      | Some name => BuiltinFunction name
      | None => if jsstring_eqb k protoKey then ObjectPrototype else Undefined
      end
  end.

Fixpoint update (k : jsstring) (p : prim) (o : object) : object :=
  match o with
  | [] => []
  | (k', v) :: o' =>
      if jsstring_eqb k k' then (k', p) :: o' else (k', v) :: update k p o'
  end.

(** [o[k] = p] for a primitive [p]: an own property is overwritten in
    place; over an inherited writable data property, or over nothing, a new
    own property is created; the inherited setter of [__proto__] is called
    instead and ignores a value that is neither an object nor [null]. *)
Definition set (o : object) (k : jsstring) (p : prim) : object :=
  match assoc k o with
  | Some _ => update k p o
  | None => if jsstring_eqb k protoKey then o else o ++ [(k, p)]
  end.

(** The source text of a built-in function, as V8 prints it. *)
Definition nativeSource (name : jsstring) : jsstring :=
  u "function " ++ name ++ u "() { [native code] }".

(** The expression [(x || 0) + 1].  [undefined], [0] and the empty string
    are falsy.  [+] adds numbers; with a string operand, or an object
    operand (whose primitive value is its string conversion), it
    concatenates.  Counts stay far below 2^53, where the addition is
    exact. *)
Definition orZeroPlusOne (x : value) : prim :=
  match x with
  | Undefined => Num 1
  | Prim (Num n) => Num (n + 1)
  | Prim (Text []) => Num 1
  | Prim (Text s) => Text (s ++ u "1")
  | BuiltinFunction name => Text (nativeSource name ++ u "1")
  | ObjectPrototype => Text (u "[object Object]" ++ u "1")
  end.

(** An array index: the canonical decimal form of an integer between 0
    and 2^32 - 2. *)
Definition isDigit (c : char) : bool := inRange 48%N 57%N c.

Definition digitsValue (s : jsstring) : N :=
  fold_left (fun acc c => (10 * acc + (c - 48))%N) s 0%N.

Definition arrayIndex (k : jsstring) : option N :=
  match k with
  | [] => None
  | c :: rest =>
      if (forallb isDigit k
          && (negb (char_eqb c 48%N) || match rest with [] => true | _ => false end)
          && Nat.leb (length k) 10
          && N.leb (digitsValue k) 4294967294)%bool
      then Some (digitsValue k)
      else None
  end.

Fixpoint insertIndex (A : Type) (e : N * A) (l : list (N * A)) : list (N * A) :=
  match l with
  | [] => [e]
  | e' :: l' => if N.ltb (fst e) (fst e') then e :: l else e' :: insertIndex e l'
  end.

Fixpoint indexEntries (o : object) : list (N * (jsstring * prim)) :=
  match o with
  | [] => []
  | (k, v) :: o' =>
      match arrayIndex k with
      | Some i => insertIndex (i, (k, v)) (indexEntries o')
      | None => indexEntries o'
      end
  end.

Definition isNamed (e : jsstring * prim) : bool :=
  match arrayIndex (fst e) with Some _ => false | None => true end.

(** [Object.entries]: the array-index keys in ascending order, then the
    other keys in creation order. *)
Definition entries (o : object) : list (jsstring * prim) :=
  map snd (indexEntries o) ++ filter isNamed o.

(** ** The plugin *)

Record WordCountPluginSettings : Type := mkSettings {
  countOnlyActualWords : bool;
  excludeFrontmatter : bool
}.

Definition DEFAULT_SETTINGS : WordCountPluginSettings :=
  {| countOnlyActualWords := true; excludeFrontmatter := true |}.

(** [/\s+/] *)
Definition whitespaceRegex : regex := Plus (Class isWhiteSpace).

(** [/[a-zA-ZÀ-ÿ]/] *)
Definition hasLetter : regex := Class isLetterClass.

(** [/^---\s*\n(?:.*\n)*?---\s*\n/m] *)
Definition frontMatterRegex : regex :=
  Seq (LineStart true)
  (Seq (Str (u "---"))
  (Seq (Star (Class isWhiteSpace))
  (Seq (Chr LF)
  (Seq (LazyStar (Seq (Star (Class isDot)) (Chr LF)))
  (Seq (Str (u "---"))
  (Seq (Star (Class isWhiteSpace))
       (Chr LF))))))).

Definition nonEmpty (word : jsstring) : bool := Nat.ltb 0 (length word).

(** The words that both [countWords] and [getWordFrequency] keep. *)
Definition words (settings : WordCountPluginSettings) (text : jsstring)
    : list jsstring :=
  if countOnlyActualWords settings
  then filter (fun word => test hasLetter word) (split whitespaceRegex text)
  else filter nonEmpty (split whitespaceRegex text).

Definition countWords (settings : WordCountPluginSettings) (text : jsstring)
    : nat :=
  if countOnlyActualWords settings
  then length (filter (fun word => test hasLetter word)
                      (split whitespaceRegex text))
  else length (filter nonEmpty (split whitespaceRegex text)).

Definition removeFrontMatter (text : jsstring) : jsstring :=
  replace frontMatterRegex [] text.

(** The editor of the active Markdown view, as the host reports it. *)
Record Editor : Type := mkEditor {
  getSelection : jsstring;
  getValue : jsstring
}.

Record WordCountPlugin : Type := mkPlugin {
  settings : WordCountPluginSettings;
  activeView : option Editor;
  statusBarItem : jsstring
}.

Definition setText (this : WordCountPlugin) (text : jsstring) : WordCountPlugin :=
  {| settings := settings this; activeView := activeView this;
     statusBarItem := text |}.

(** The template [`${wordCount} words`]. *)
Definition wordsLabel (wordCount : nat) : jsstring :=
  numberToString (N.of_nat wordCount) ++ u " words".

(** [selection && selection.trim().length > 0] *)
Definition hasSelection (selection : jsstring) : bool :=
  (nonEmpty selection && Nat.ltb 0 (length (trim selection)))%bool.

Definition updateWordCount (this : WordCountPlugin) : WordCountPlugin :=
  match activeView this with
  | None => setText this (u "No editor")
  | Some editor =>
      let selection := getSelection editor in
      if hasSelection selection then
        let wordCount := countWords (settings this) selection in
        setText this (wordsLabel wordCount)
      else
        let text := getValue editor in
        let text := if excludeFrontmatter (settings this)
                    then removeFrontMatter text else text in
        let wordCount := countWords (settings this) text in
        setText this (wordsLabel wordCount)
  end.

Section WordFrequency.

(** [String.prototype.toLowerCase] follows the Unicode case tables, which
    are no part of the plugin; it is a parameter here. *)
Variable toLowerCase : jsstring -> jsstring.

Definition countWord (wordFrequency : object) (word : jsstring) : object :=
  let normalizedWord := toLowerCase word in
  set wordFrequency normalizedWord
      (orZeroPlusOne (get wordFrequency normalizedWord)).

Definition getWordFrequency (settings : WordCountPluginSettings)
    (text : jsstring) : object :=
  let wordFrequency : object := [] in
  let words : list jsstring :=
    if countOnlyActualWords settings
    then filter (fun word => test hasLetter word) (split whitespaceRegex text)
    else filter nonEmpty (split whitespaceRegex text) in
  fold_left countWord words wordFrequency.

End WordFrequency.

(** [count > 1].  A number is compared as it is.  A string is converted to
    a number first; the strings that [getWordFrequency] stores start with
    the source text of a function, convert to NaN, and compare false. *)
Definition moreThanOnce (e : jsstring * prim) : bool :=
  match snd e with
  | Num n => N.ltb 1 n
  | Text _ => false
  end.

(** The comparator [(a, b) => b[1] - a[1]]; NaN counts as 0 in a sort. *)
Definition byCountDescending (a b : jsstring * prim) : Z :=
  match snd a, snd b with
  | Num x, Num y => (Z.of_N y - Z.of_N x)%Z
  | _, _ => 0%Z
  end.

(** [Array.prototype.sort] is stable; with a consistent comparator its
    result is the one stable arrangement, computed here by insertion. *)
Fixpoint sortInsert (A : Type) (cmp : A -> A -> Z) (x : A) (l : list A) : list A :=
  match l with
  | [] => [x]
  | y :: l' => if Z.ltb 0 (cmp x y) then y :: sortInsert cmp x l' else x :: l
  end.

Fixpoint sort (A : Type) (cmp : A -> A -> Z) (l : list A) : list A :=
  match l with
  | [] => []
  | x :: l' => sortInsert cmp x (sort cmp l')
  end.

(** The rows of the modal, [WordFrequencyModal.onOpen]. *)
Definition sortedWords (wordFrequency : object) : list (jsstring * prim) :=
  sort byCountDescending (filter moreThanOnce (entries wordFrequency)).

Definition primToString (p : prim) : jsstring :=
  match p with
  | Num n => numberToString n
  | Text s => s
  end.

Record ModalContent : Type := mkModal {
  rows : list (jsstring * jsstring);
  message : option jsstring
}.

Definition onOpen (wordFrequency : object) : ModalContent :=
  let sorted := sortedWords wordFrequency in
  {| rows := map (fun e => (fst e, primToString (snd e))) sorted;
     message := match sorted with
                | [] => Some (u "No words appear more than once in this document.")
                | _ => None
                end |}.

Definition showWordFrequencyModal (toLowerCase : jsstring -> jsstring)
    (this : WordCountPlugin) : option ModalContent :=
  match activeView this with
  | None => None
  | Some editor =>
      let text := getValue editor in
      let text := if excludeFrontmatter (settings this)
                  then removeFrontMatter text else text in
      let wordFrequency := getWordFrequency toLowerCase (settings this) text in
      Some (onOpen wordFrequency)
  end.

(** ** The update trigger

    The handlers registered in [onload] all call [updateWordCount]; what
    differs is what the host changed before it delivers the event.  An event
    carries the active view as [getActiveViewOfType] reports it at
    delivery.  The two toggles of the settings tab write the setting and
    call [updateWordCount] too. *)
Inductive event : Type :=
| ActiveLeafChange (view : option Editor)
| EditorChange (view : option Editor)
| SelectionChange (view : option Editor)
| SetCountOnlyActualWords (value : bool)
| SetExcludeFrontmatter (value : bool).

Definition withView (this : WordCountPlugin) (view : option Editor) : WordCountPlugin :=
  {| settings := settings this; activeView := view;
     statusBarItem := statusBarItem this |}.

Definition withSettings (this : WordCountPlugin) (s : WordCountPluginSettings)
    : WordCountPlugin :=
  {| settings := s; activeView := activeView this;
     statusBarItem := statusBarItem this |}.

Definition handle (this : WordCountPlugin) (e : event) : WordCountPlugin :=
  match e with
  | ActiveLeafChange view | EditorChange view | SelectionChange view =>
      updateWordCount (withView this view)
  | SetCountOnlyActualWords value =>
      updateWordCount
        (withSettings this
           {| countOnlyActualWords := value;
              excludeFrontmatter := excludeFrontmatter (settings this) |})
  | SetExcludeFrontmatter value =>
      updateWordCount
        (withSettings this
           {| countOnlyActualWords := countOnlyActualWords (settings this);
              excludeFrontmatter := value |})
  end.

(** [onload]: the settings are loaded, the status bar item is created with
    the text [Words: 0], and the count is updated once. *)
Definition onload (loaded : WordCountPluginSettings) (view : option Editor)
    : WordCountPlugin :=
  updateWordCount
    {| settings := loaded; activeView := view; statusBarItem := u "Words: 0" |}.

Definition run (this : WordCountPlugin) (events : list event) : WordCountPlugin :=
  fold_left handle events this.

(** ASCII lower-casing, the part of [toLowerCase] that the examples use. *)
Definition asciiLower (c : char) : char :=
  if inRange 65%N 90%N c then (c + 32)%N else c.

Definition isAscii (c : char) : bool := N.ltb c 128%N.

Definition asciiToLowerCase (s : jsstring) : jsstring := map asciiLower s.

(** A lower-casing function that does on ASCII strings what [toLowerCase]
    does there. *)
Definition LowersAscii (toLowerCase : jsstring -> jsstring) : Prop :=
  forall s, forallb isAscii s = true -> toLowerCase s = asciiToLowerCase s.

(** ** Notions used in the statements *)

(** [y] is reached from [x] by consuming [mid]. *)
Definition extends (x y : state) : Prop :=
  exists mid, after x = mid ++ after y /\ before y = rev mid ++ before x.

(** A matcher that looks at its continuation only on states reached from
    its own. *)
Definition local (m : matcherT) : Prop :=
  forall x c1 c2, (forall y, extends x y -> c1 y = c2 y) -> m x c1 = m x c2.

(** The state after the longest run of [p] from [(b, s)]. *)
Fixpoint spanState (p : char -> bool) (b : list char) (s : jsstring) : state :=
  match s with
  | a :: s' => if p a then spanState p (a :: b) s' else mkState b s
  | [] => mkState b []
  end.

(** ** Tokens

    The glossary of the specification: a token is a maximal run of
    characters that are not white space.  [tokens] collects them from left
    to right; [cur] is the run being read, reversed. *)
Fixpoint tokensFrom (cur : list char) (s : jsstring) : list jsstring :=
  match s with
  | [] => match cur with [] => [] | _ => [rev cur] end
  | a :: s' =>
      if isWhiteSpace a
      then match cur with
           | [] => tokensFrom [] s'
           | _ => rev cur :: tokensFrom [] s'
           end
      else tokensFrom (a :: cur) s'
  end.

Definition tokens (s : jsstring) : list jsstring := tokensFrom [] s.

(** The letters among the code units below U+0100, after the Unicode
    character database (general categories Lu, Ll and Lo): A-Z, a-z,
    U+00AA, U+00B5, U+00BA, U+00C0..U+00D6, U+00D8..U+00F6 and
    U+00F8..U+00FF. *)
Definition isLatin1Letter (c : char) : bool :=
  (inRange 65 90 c || inRange 97 122 c || char_eqb c 170 || char_eqb c 181
   || char_eqb c 186 || inRange 192 214 c || inRange 216 246 c
   || inRange 248 255 c)%N%bool.

Definition notWhiteSpace (c : char) : bool := negb (isWhiteSpace c).

(** *** Frontmatter blocks *)

Fixpoint startsWith (prefix s : jsstring) : bool :=
  match prefix, s with
  | [], _ => true
  | c :: prefix', a :: s' => (char_eqb a c && startsWith prefix' s')%bool
  | _ :: _, [] => false
  end.

(** [\s*\n] followed by [k]: the white space is taken as far as it goes,
    and [k] is tried after each LF of the run, the last one first. *)
Fixpoint wsThenLF (k : continuation) (b : list char) (s : jsstring) : option state :=
  match s with
  | [] => None
  | a :: s' =>
      if isWhiteSpace a then
        match wsThenLF k (a :: b) s' with
        | Some z => Some z
        | None => if char_eqb a LF then k (mkState (a :: b) s') else None
        end
      else None
  end.

(** [.*\n] followed by [k]: the rest of the line and its LF. *)
Fixpoint dotThenLF (k : continuation) (b : list char) (s : jsstring) : option state :=
  match s with
  | [] => None
  | a :: s' =>
      if isDot a then dotThenLF k (a :: b) s'
      else if char_eqb a LF then k (mkState (a :: b) s') else None
  end.

(** What is left of [s] after the last LF of its leading white space, if
    that white space holds an LF. *)
Fixpoint skipBlank (s : jsstring) : option jsstring :=
  match s with
  | [] => None
  | a :: s' =>
      if isWhiteSpace a then
        match skipBlank s' with
        | Some r => Some r
        | None => if char_eqb a LF then Some s' else None
        end
      else None
  end.

(** [s] without the white-space-only lines it starts with. *)
Definition dropBlankLines (s : jsstring) : jsstring :=
  match skipBlank s with Some r => r | None => s end.

(** A line, without its terminator, that consists of [---] and optional
    trailing white space. *)
Definition isDelimiterLine (l : jsstring) : bool :=
  (startsWith (u "---") l && forallb isWhiteSpace (skipn 3 l))%bool.

(** A line inside a block: no line terminator in it, and no delimiter. *)
Definition isBodyLine (l : jsstring) : bool :=
  (forallb isDot l && negb (isDelimiterLine l))%bool.

(** Lines, each closed by LF. *)
Definition linesText (ls : list jsstring) : jsstring :=
  concat (map (fun l => l ++ [LF]) ls).

(** [---\s*\n], the closing delimiter of the pattern. *)
Definition delimiterRegex : regex :=
  Seq (Str (u "---")) (Seq (Star (Class isWhiteSpace)) (Chr LF)).

(** [.*\n] *)
Definition lineRegex : regex := Seq (Star (Class isDot)) (Chr LF).

Definition afterOf (o : option state) : option jsstring := option_map after o.

(** The position of a state is the start of a line. *)
Definition atLineStart (b : list char) : bool :=
  match b with
  | [] => true
  | a :: _ => isLineTerminator a
  end.

(** The least number of code units a match of [r] consumes. *)
Fixpoint minLength (r : regex) : nat :=
  match r with
  | Empty => 0
  | Chr _ => 1
  | Class _ => 1
  | LineStart _ => 0
  | Seq r1 r2 => minLength r1 + minLength r2
  | Repeat min _ r' => min * minLength r'
  end.

(** A matcher that reaches its continuation only after [n] code units. *)
Definition consumes (n : nat) (m : matcherT) : Prop :=
  forall x c z, m x c = Some z ->
    exists y, extends x y /\ endIndex x + n <= endIndex y /\ c y = Some z.

(** *** The status bar *)

(** What the status bar is to show for the active view [view]: a selection
    with a code unit that is no white space is counted as it is; else the
    document is counted, stripped of its frontmatter when the setting asks
    for it. *)
Definition expectedLabel (settings : WordCountPluginSettings)
    (view : option Editor) : jsstring :=
  match view with
  | None => u "No editor"
  | Some editor =>
      if existsb notWhiteSpace (getSelection editor)
      then wordsLabel (countWords settings (getSelection editor))
      else wordsLabel
             (countWords settings
                (if excludeFrontmatter settings
                 then removeFrontMatter (getValue editor)
                 else getValue editor))
  end.

Definition upToDate (this : WordCountPlugin) : Prop :=
  statusBarItem this = expectedLabel (settings this) (activeView this).

(** *** Word frequencies *)

(** A property name that [Object.prototype] holds. *)
Definition isPrototypeName (k : jsstring) : bool :=
  match assoc k objectPrototypeMethods with
  | Some _ => true
  | None => jsstring_eqb k protoKey
  end.

(** How often [k] is the lower-cased form of a word of [ws]. *)
Definition occurrences (toLowerCase : jsstring -> jsstring) (k : jsstring)
    (ws : list jsstring) : nat :=
  length (filter (fun w => jsstring_eqb (toLowerCase w) k) ws).

(** What the object built from the words [ws] holds under the key [k]. *)
Definition expected (toLowerCase : jsstring -> jsstring) (ws : list jsstring)
    (k : jsstring) : option prim :=
  match occurrences toLowerCase k ws with
  | O => None
  | S n =>
      match assoc k objectPrototypeMethods with
      | Some name => Some (Text (nativeSource name ++ repeat 49%N (S n)))
      | None => if jsstring_eqb k protoKey then None
                else Some (Num (N.of_nat (S n)))
      end
  end.

(** The count of an entry; a string is no count. *)
Definition countOf (e : jsstring * prim) : N :=
  match snd e with
  | Num n => n
  | Text _ => 0%N
  end.

(** The sum of the counts of a mapping. *)
Definition totalCount (o : object) : N :=
  fold_right (fun e acc => (countOf e + acc)%N) 0%N o.

Definition descending (a b : jsstring * prim) : Prop := (countOf b <= countOf a)%N.

(** *** Further notions *)

(** Whether [countWords] counts the token [w] under [settings]. *)
Definition counted (settings : WordCountPluginSettings) (w : jsstring) : bool :=
  if countOnlyActualWords settings then existsb isLetterClass w else true.

(** Some line of [s] begins with [---]; [atStart] tells whether [s] itself
    begins a line. *)
Fixpoint someLineStartsWithDashes (atStart : bool) (s : jsstring) : bool :=
  match s with
  | [] => false
  | a :: s' =>
      ((atStart && startsWith (u "---") s)
       || someLineStartsWithDashes (isLineTerminator a) s')%bool
  end.

(** The distinct elements of [ks] that are not in [seen], in the order of
    their first occurrence. *)
Fixpoint distinct (seen : list jsstring) (ks : list jsstring) : list jsstring :=
  match ks with
  | [] => []
  | k :: ks' =>
      if existsb (jsstring_eqb k) seen then distinct seen ks'
      else k :: distinct (k :: seen) ks'
  end.

(** A key that is an array index, and the index it denotes. *)
Definition isIndexKey (k : jsstring) : bool :=
  match arrayIndex k with Some _ => true | None => false end.

Definition indexOf (k : jsstring) : N :=
  match arrayIndex k with Some i => i | None => 0%N end.

(** * Properties *)

(** ** The matcher *)

Lemma extends_refl x : extends x x.
Proof. exists []. split; reflexivity. Qed.

Lemma extends_trans x y z : extends x y -> extends y z -> extends x z.
Proof.
  intros [m1 [A1 B1]] [m2 [A2 B2]]. exists (m1 ++ m2). split.
  - rewrite A1, A2. now rewrite app_assoc.
  - rewrite B2, B1, rev_app_distr. now rewrite app_assoc.
Qed.

Lemma extends_step x a rest :
  after x = a :: rest -> extends x (mkState (a :: before x) rest).
Proof. intros H. exists [a]. split; simpl; auto. Qed.

Lemma extends_after_length x y :
  extends x y -> length (after y) <= length (after x).
Proof. intros [m [A _]]. rewrite A, length_app. lia. Qed.

Lemma extends_endIndex x y :
  extends x y -> endIndex y + length (after y) = endIndex x + length (after x).
Proof.
  intros [m [A B]]. unfold endIndex. rewrite A, B.
  rewrite !length_app, length_rev. lia.
Qed.

Lemma repeatMatcher_local m greedy :
  local m -> forall fuel min, local (fun x c => repeatMatcher m greedy fuel min x c).
Proof.
  intros Hm fuel. induction fuel as [|fuel IH]; intros min x c1 c2 Hc; simpl; auto.
  assert (D : m x (fun y =>
              if (Nat.eqb min 0 && Nat.eqb (endIndex y) (endIndex x))%bool then None
              else repeatMatcher m greedy fuel (Nat.pred min) y c1)
            = m x (fun y =>
              if (Nat.eqb min 0 && Nat.eqb (endIndex y) (endIndex x))%bool then None
              else repeatMatcher m greedy fuel (Nat.pred min) y c2)).
  { apply Hm. intros y Hy.
    destruct (Nat.eqb min 0 && Nat.eqb (endIndex y) (endIndex x))%bool; auto.
    apply IH. intros w Hw. apply Hc. eapply extends_trans; eauto. }
  rewrite D, (Hc x (extends_refl x)). reflexivity.
Qed.

Lemma matcher_local r : local (matcher r).
Proof.
  induction r; intros x c1 c2 Hc; cbn [matcher].
  - apply Hc, extends_refl.
  - destruct (after x) eqn:E; auto. destruct (char_eqb c0 c); auto.
    apply Hc. now apply extends_step.
  - destruct (after x) eqn:E; auto. destruct (p c); auto.
    apply Hc. now apply extends_step.
  - rewrite (Hc x (extends_refl x)). reflexivity.
  - apply IHr1. intros y Hy. apply IHr2. intros w Hw. apply Hc.
    eapply extends_trans; eauto.
  - now apply (repeatMatcher_local greedy IHr).
Qed.

(** The fuel of [repeatMatcher] is never used up: any amount above
    [min + length (after x)] gives the same result. *)
Lemma repeatMatcher_fuel r greedy :
  forall n fuel1 fuel2 min x c,
    min + length (after x) <= n ->
    min + length (after x) < fuel1 -> min + length (after x) < fuel2 ->
    repeatMatcher (matcher r) greedy fuel1 min x c
    = repeatMatcher (matcher r) greedy fuel2 min x c.
Proof.
  induction n as [|n IH]; intros fuel1 fuel2 min x c Hn H1 H2;
    (destruct fuel1 as [|fuel1]; [lia|]); (destruct fuel2 as [|fuel2]; [lia|]); simpl.
  - assert (min = 0) by lia. subst min. simpl.
    assert (D : forall f1 f2,
      matcher r x (fun y => if Nat.eqb (endIndex y) (endIndex x) then None
                            else repeatMatcher (matcher r) greedy f1 0 y c)
      = matcher r x (fun y => if Nat.eqb (endIndex y) (endIndex x) then None
                            else repeatMatcher (matcher r) greedy f2 0 y c)).
    { intros f1 f2. apply matcher_local. intros y Hy.
      destruct (Nat.eqb (endIndex y) (endIndex x)) eqn:E; auto.
      apply Nat.eqb_neq in E. pose proof (extends_endIndex Hy).
      pose proof (extends_after_length Hy). simpl in *. lia. }
    now rewrite (D fuel1 fuel2).
  - assert (D :
      matcher r x (fun y =>
        if (Nat.eqb min 0 && Nat.eqb (endIndex y) (endIndex x))%bool then None
        else repeatMatcher (matcher r) greedy fuel1 (Nat.pred min) y c)
      = matcher r x (fun y =>
        if (Nat.eqb min 0 && Nat.eqb (endIndex y) (endIndex x))%bool then None
        else repeatMatcher (matcher r) greedy fuel2 (Nat.pred min) y c)).
    { apply matcher_local. intros y Hy.
      destruct (Nat.eqb min 0 && Nat.eqb (endIndex y) (endIndex x))%bool eqn:E; auto.
      pose proof (extends_endIndex Hy). pose proof (extends_after_length Hy).
      apply IH.
      - destruct min; simpl in *; [|lia].
        apply Nat.eqb_neq in E. lia.
      - destruct min; simpl in *; [|lia]. apply Nat.eqb_neq in E. lia.
      - destruct min; simpl in *; [|lia]. apply Nat.eqb_neq in E. lia. }
    now rewrite D.
Qed.

(** The quantifier equations of the pattern language, free of fuel. *)
Lemma matcher_Repeat_S r greedy min x c :
  matcher (Repeat (S min) greedy r) x c
  = matcher r x (fun y => matcher (Repeat min greedy r) y c).
Proof.
  transitivity
    (matcher r x (fun y =>
       repeatMatcher (matcher r) greedy (S min + length (after x)) min y c));
    [reflexivity|].
  apply matcher_local. intros y Hy.
  pose proof (extends_after_length Hy).
  change (matcher (Repeat min greedy r) y c)
    with (repeatMatcher (matcher r) greedy (S (min + length (after y))) min y c).
  apply repeatMatcher_fuel with (n := min + length (after x)); lia.
Qed.

Lemma matcher_Repeat_0 r greedy x c :
  matcher (Repeat 0 greedy r) x c
  = let d := fun y => if Nat.eqb (endIndex y) (endIndex x) then None
                      else matcher (Repeat 0 greedy r) y c in
    if greedy
    then match matcher r x d with Some z => Some z | None => c x end
    else match c x with Some z => Some z | None => matcher r x d end.
Proof.
  set (d0 := fun y => if Nat.eqb (endIndex y) (endIndex x) then None
      else repeatMatcher (matcher r) greedy (0 + length (after x)) 0 y c).
  transitivity
    (if greedy
     then match matcher r x d0 with Some z => Some z | None => c x end
     else match c x with Some z => Some z | None => matcher r x d0 end);
    [reflexivity|].
  cbv zeta.
  assert (D :
    matcher r x d0
    = matcher r x (fun y => if Nat.eqb (endIndex y) (endIndex x) then None
                            else matcher (Repeat 0 greedy r) y c)).
  { apply matcher_local. intros y Hy. unfold d0.
    destruct (Nat.eqb (endIndex y) (endIndex x)) eqn:E; auto.
    apply Nat.eqb_neq in E.
    pose proof (extends_endIndex Hy). pose proof (extends_after_length Hy).
    change (matcher (Repeat 0 greedy r) y c)
      with (repeatMatcher (matcher r) greedy (S (0 + length (after y))) 0 y c).
    apply repeatMatcher_fuel with (n := length (after x)); simpl; lia. }
  rewrite D. reflexivity.
Qed.

Ltac splits := repeat match goal with |- _ /\ _ => split end.

(** The other equations of [matcher], for rewriting. *)
Lemma matcher_Empty x c : matcher Empty x c = c x.
Proof. reflexivity. Qed.

Lemma matcher_Seq r1 r2 x c :
  matcher (Seq r1 r2) x c = matcher r1 x (fun y => matcher r2 y c).
Proof. reflexivity. Qed.

Lemma matcher_Chr ch b s c :
  matcher (Chr ch) (mkState b s) c
  = match s with
    | a :: rest => if char_eqb a ch then c (mkState (a :: b) rest) else None
    | [] => None
    end.
Proof. reflexivity. Qed.

Lemma matcher_Class p b s c :
  matcher (Class p) (mkState b s) c
  = match s with
    | a :: rest => if p a then c (mkState (a :: b) rest) else None
    | [] => None
    end.
Proof. reflexivity. Qed.

Lemma matcher_LineStart multiline b s c :
  matcher (LineStart multiline) (mkState b s) c
  = match b with
    | [] => c (mkState b s)
    | a :: _ => if (multiline && isLineTerminator a)%bool
                then c (mkState b s) else None
    end.
Proof. reflexivity. Qed.

Arguments matcher : simpl never.
Arguments repeatMatcher : simpl never.

(** ** Equality on strings *)

Lemma jsstring_eqb_eq a b : jsstring_eqb a b = true <-> a = b.
Proof.
  revert b. induction a as [|x a IH]; intros [|y b]; simpl; split;
    try congruence; try reflexivity.
  - intros H. apply andb_true_iff in H. destruct H as [H1 H2].
    apply N.eqb_eq in H1. apply IH in H2. congruence.
  - intros H. inversion H; subst. apply andb_true_iff. split.
    + apply N.eqb_refl.
    + now apply IH.
Qed.

Lemma jsstring_eqb_refl a : jsstring_eqb a a = true.
Proof. now apply jsstring_eqb_eq. Qed.

Lemma jsstring_eqb_neq a b : jsstring_eqb a b = false <-> a <> b.
Proof.
  split.
  - intros H E. apply jsstring_eqb_eq in E. congruence.
  - intros H. destruct (jsstring_eqb a b) eqn:E; auto.
    apply jsstring_eqb_eq in E. contradiction.
Qed.

Lemma jsstring_eqb_sym a b : jsstring_eqb a b = jsstring_eqb b a.
Proof.
  destruct (jsstring_eqb a b) eqn:E.
  - apply jsstring_eqb_eq in E. subst. now rewrite jsstring_eqb_refl.
  - symmetry. apply jsstring_eqb_neq. apply jsstring_eqb_neq in E. congruence.
Qed.

(** ** Greedy runs over a character class *)

Lemma endIndex_step a b s s' :
  Nat.eqb (endIndex (mkState (a :: b) s)) (endIndex (mkState b s')) = false.
Proof. unfold endIndex. cbn [before]. apply Nat.eqb_neq. simpl. lia. Qed.

(** [p*] as the last thing in a pattern takes the longest run. *)
Lemma matcher_Star_Class_final p s :
  forall b, matcher (Star (Class p)) (mkState b s) Some = Some (spanState p b s).
Proof.
  induction s as [|a s IH]; intros b; unfold Star; rewrite matcher_Repeat_0;
    cbv zeta; rewrite matcher_Class.
  - reflexivity.
  - cbn [spanState]. destruct (p a); auto.
    rewrite endIndex_step. fold (Star (Class p)). now rewrite IH.
Qed.

Lemma spanState_endIndex p s : forall b, length b <= endIndex (spanState p b s).
Proof.
  induction s as [|a s IH]; intros b; simpl; auto.
  destruct (p a); simpl; auto.
  specialize (IH (a :: b)). simpl in IH. lia.
Qed.

Lemma spanState_after_length p s :
  forall b, length (after (spanState p b s)) <= length s.
Proof.
  induction s as [|a s IH]; intros b; simpl; auto.
  destruct (p a); simpl; [specialize (IH (a :: b)); lia | lia].
Qed.

(** [/\s+/] anchored at a state: fails off white space, else takes the
    whole run. *)
Lemma matchAt_whitespaceRegex b s :
  matchAt whitespaceRegex (mkState b s)
  = match s with
    | a :: s' => if isWhiteSpace a then Some (spanState isWhiteSpace (a :: b) s')
                 else None
    | [] => None
    end.
Proof.
  unfold matchAt, whitespaceRegex, Plus. rewrite matcher_Repeat_S.
  rewrite matcher_Class. destruct s as [|a s']; auto.
  destruct (isWhiteSpace a); auto.
  apply (matcher_Star_Class_final isWhiteSpace s' (a :: b)).
Qed.

Lemma tokensFrom_spanState s :
  forall b, tokensFrom [] (after (spanState isWhiteSpace b s)) = tokensFrom [] s.
Proof.
  induction s as [|a s IH]; intros b; simpl; auto.
  destruct (isWhiteSpace a) eqn:E; simpl; auto. now rewrite E.
Qed.

Lemma nonEmpty_rev piece :
  nonEmpty (rev piece) = match piece with [] => false | _ => true end.
Proof.
  unfold nonEmpty. rewrite length_rev. destruct piece; reflexivity.
Qed.

Lemma splitLoop_tokens fuel :
  forall piece b s, length s < fuel ->
    filter nonEmpty (splitLoop whitespaceRegex fuel piece (mkState b s))
    = tokensFrom piece s.
Proof.
  induction fuel as [|fuel IH]; intros piece b s Hf; [lia|].
  cbn [splitLoop after]. destruct s as [|a s'].
  - cbn [filter tokensFrom]. rewrite nonEmpty_rev. destruct piece; reflexivity.
  - rewrite matchAt_whitespaceRegex. cbn [tokensFrom].
    destruct (isWhiteSpace a) eqn:E.
    + assert (N : Nat.eqb (endIndex (spanState isWhiteSpace (a :: b) s'))
                          (endIndex (mkState b (a :: s'))) = false).
      { apply Nat.eqb_neq. pose proof (spanState_endIndex isWhiteSpace s' (a :: b)).
        unfold endIndex at 2. simpl in *. lia. }
      rewrite N. cbn [andb filter]. rewrite nonEmpty_rev.
      pose proof (spanState_after_length isWhiteSpace s' (a :: b)) as L.
      destruct (spanState isWhiteSpace (a :: b) s') as [b2 s2] eqn:Sp.
      simpl in L, Hf. rewrite IH by lia.
      replace s2 with (after (spanState isWhiteSpace (a :: b) s')) by now rewrite Sp.
      rewrite tokensFrom_spanState. destruct piece; reflexivity.
    + unfold advance. cbn [after before]. simpl in Hf. apply IH. lia.
Qed.

(** [split(/\s+/)] followed by the filter on non-empty words yields the
    tokens of the text. *)
Lemma split_tokens text :
  filter nonEmpty (split whitespaceRegex text) = tokens text.
Proof.
  unfold split, tokens. destruct text as [|a s]; [reflexivity|].
  unfold start. apply splitLoop_tokens. simpl. lia.
Qed.

(** [hasLetter.test(word)]: some code unit of [word] is in the class. *)
Lemma execFrom_hasLetter word :
  forall b, (match execFrom hasLetter b word with Some _ => true | None => false end)
            = existsb isLetterClass word.
Proof.
  induction word as [|a w IH]; intros b; simpl; auto.
  unfold matchAt, hasLetter. rewrite matcher_Class.
  destruct (isLetterClass a); simpl; auto.
Qed.

Lemma test_hasLetter word : test hasLetter word = existsb isLetterClass word.
Proof. unfold test, exec. apply execFrom_hasLetter. Qed.

Lemma test_hasLetter_nonEmpty word :
  test hasLetter word = true -> nonEmpty word = true.
Proof. rewrite test_hasLetter. destruct word; simpl; auto. Qed.

Lemma filter_implies (A : Type) (f g : A -> bool) (l : list A) :
  (forall a, f a = true -> g a = true) -> filter f (filter g l) = filter f l.
Proof.
  intros H. induction l as [|a l IH]; simpl; auto.
  destruct (g a) eqn:G; simpl.
  - destruct (f a); now rewrite IH.
  - destruct (f a) eqn:F; auto. apply H in F. congruence.
Qed.

Lemma filter_length_le (A : Type) (f : A -> bool) (l : list A) :
  length (filter f l) <= length l.
Proof.
  induction l as [|a l IH]; simpl; auto. destruct (f a); simpl; lia.
Qed.

Lemma words_tokens settings text :
  words settings text
  = if countOnlyActualWords settings
    then filter (existsb isLetterClass) (tokens text)
    else tokens text.
Proof.
  unfold words. destruct (countOnlyActualWords settings).
  - rewrite <- split_tokens.
    rewrite (filter_implies (existsb isLetterClass) nonEmpty).
    + apply filter_ext. intros a. apply test_hasLetter.
    + intros a. rewrite <- test_hasLetter. apply test_hasLetter_nonEmpty.
  - apply split_tokens.
Qed.

Lemma countWords_words settings text :
  countWords settings text = length (words settings text).
Proof. unfold countWords, words. now destruct (countOnlyActualWords settings). Qed.

(** The tokens are the maximal runs of non-white-space code units: a run
    between separators is one token, and white space only separates. *)
Lemma tokensFrom_app cur w :
  forallb notWhiteSpace w = true ->
  forall s, tokensFrom cur (w ++ s) = tokensFrom (rev w ++ cur) s.
Proof.
  revert cur. induction w as [|a w IH]; intros cur H s; simpl; auto.
  simpl in H. apply andb_true_iff in H. destruct H as [Ha Hw].
  unfold notWhiteSpace in Ha. apply negb_true_iff in Ha. rewrite Ha.
  rewrite IH by auto. now rewrite <- app_assoc.
Qed.

Lemma tokens_run w :
  w <> [] -> forallb notWhiteSpace w = true -> tokens w = [w].
Proof.
  intros Hn Hw. unfold tokens. rewrite <- (app_nil_r w) at 1.
  rewrite tokensFrom_app by auto. simpl. rewrite app_nil_r.
  destruct (rev w) eqn:E.
  - apply (f_equal (@rev char)) in E. rewrite rev_involutive in E. now subst.
  - rewrite <- E. now rewrite rev_involutive.
Qed.

Lemma tokensFrom_separator :
  forall s1 cur a s2, isWhiteSpace a = true ->
    tokensFrom cur (s1 ++ a :: s2) = tokensFrom cur s1 ++ tokensFrom [] s2.
Proof.
  induction s1 as [|c s1 IH]; intros cur a s2 Ha; simpl.
  - rewrite Ha. destruct cur; reflexivity.
  - destruct (isWhiteSpace c).
    + destruct cur; simpl; now rewrite IH.
    + now apply IH.
Qed.

Lemma tokens_separator s1 a s2 :
  isWhiteSpace a = true -> tokens (s1 ++ a :: s2) = tokens s1 ++ tokens s2.
Proof. apply tokensFrom_separator. Qed.

Lemma tokens_whitespace s : forallb isWhiteSpace s = true -> tokens s = [].
Proof.
  unfold tokens. induction s as [|a s IH]; simpl; auto.
  intros H. apply andb_true_iff in H. destruct H as [Ha Hs]. rewrite Ha. auto.
Qed.

Lemma isLetterClass_digit c : isDigit c = true -> isLetterClass c = false.
Proof.
  unfold isDigit, isLetterClass, inRange. intros H.
  apply andb_true_iff in H. destruct H as [H1 H2].
  apply N.leb_le in H1, H2.
  repeat match goal with
  | |- orb _ _ = false => apply orb_false_iff; split
  | |- andb _ _ = false => apply andb_false_iff
  end.
  - left. apply N.leb_gt. lia.
  - left. apply N.leb_gt. lia.
  - left. apply N.leb_gt. lia.
Qed.

(** ** Word counts *)

(** C3: [countWords] splits on runs of white space; with
    [countOnlyActualWords] it counts exactly the tokens that hold a code
    unit of the class [a-zA-ZÀ-ÿ], without it every token.  The tokens are
    the maximal runs of code units that are no white space: a run alone is
    one token, and a white-space code unit separates the tokens on its two
    sides.  Accented Latin letters (U+00C0..U+00FF) are in the class, so
    "café naïve" counts 2; a token of digits holds no code unit of the
    class, so "123 456" counts 0 with the flag and 2 without. *)
Theorem C3_countWords_counts_tokens :
  (forall ex text,
     countWords (mkSettings true ex) text
     = length (filter (existsb isLetterClass) (tokens text)))
  /\ (forall ex text, countWords (mkSettings false ex) text = length (tokens text))
  /\ (forall w, w <> [] -> forallb notWhiteSpace w = true -> tokens w = [w])
  /\ (forall s1 a s2,
        isWhiteSpace a = true -> tokens (s1 ++ a :: s2) = tokens s1 ++ tokens s2)
  /\ tokens [] = []
  /\ (forall word, forallb isDigit word = true -> existsb isLetterClass word = false)
  /\ (forall c, inRange 192%N 255%N c = true -> isLetterClass c = true)
  /\ (forall ex, countWords (mkSettings true ex) (u "123 456") = 0)
  /\ (forall ex, countWords (mkSettings false ex) (u "123 456") = 2)
  /\ (forall ex, countWords (mkSettings true ex)
                   (u "caf" ++ 233%N :: u " na" ++ 239%N :: u "ve") = 2).
Proof.
  splits.
  - intros ex text. now rewrite countWords_words, words_tokens.
  - intros ex text. now rewrite countWords_words, words_tokens.
  - apply tokens_run.
  - apply tokens_separator.
  - reflexivity.
  - intros word. induction word as [|c w IH]; simpl; auto.
    intros H. apply andb_true_iff in H. destruct H as [Hc Hw].
    rewrite (isLetterClass_digit c Hc). auto.
  - intros c H. unfold isLetterClass. rewrite H. now rewrite !orb_true_r.
  - intros ex. reflexivity.
  - intros ex. reflexivity.
  - intros ex. reflexivity.
Qed.

(** C5: the count without the actual-words filter is never below the
    count with it. *)
Theorem C5_filter_only_removes :
  forall ex1 ex2 text,
    countWords (mkSettings true ex1) text <= countWords (mkSettings false ex2) text.
Proof.
  intros ex1 ex2 text. rewrite !countWords_words, !words_tokens. simpl.
  apply filter_length_le.
Qed.

(** C7: [countWords] returns 0 for the empty string and for every string
    of white space, with either setting; the empty words that [split]
    produces there pass neither filter. *)
Theorem C7_whitespace_counts_zero :
  forall settings text,
    forallb isWhiteSpace text = true -> countWords settings text = 0.
Proof.
  intros settings text H. rewrite countWords_words, words_tokens.
  rewrite (tokens_whitespace text H). now destruct (countOnlyActualWords settings).
Qed.

Lemma C7_whitespace_counts_zero_witness :
  countWords DEFAULT_SETTINGS [] = 0
  /\ countWords (mkSettings false true) (32%N :: 9%N :: LF :: 160%N :: [CR]) = 0.
Proof.
  split.
  - apply (C7_whitespace_counts_zero DEFAULT_SETTINGS []). reflexivity.
  - apply (C7_whitespace_counts_zero (mkSettings false true)). reflexivity.
Defined.

(** C10: the class [a-zA-ZÀ-ÿ] holds the multiplication sign U+00D7 and
    the division sign U+00F7, which are no letters; they are the only code
    units of the class that are none.  A text that is just one of the two
    signs is counted as one actual word. *)
Theorem C10_multiplication_and_division_signs_count :
  isLetterClass 215%N = true /\ isLetterClass 247%N = true
  /\ isLatin1Letter 215%N = false /\ isLatin1Letter 247%N = false
  /\ (forall c, isLetterClass c = true ->
        isLatin1Letter c = true \/ c = 215%N \/ c = 247%N)
  /\ (forall ex, countWords (mkSettings true ex) [215%N] = 1)
  /\ (forall ex, countWords (mkSettings true ex) [247%N] = 1)
  /\ (forall ex, countWords (mkSettings true ex) (u "3 " ++ 215%N :: u " 4") = 1).
Proof.
  splits; try reflexivity.
  intros c H. unfold isLetterClass, isLatin1Letter, inRange, char_eqb in *.
  destruct (N.eq_dec c 215%N) as [E|E]; [right; left; exact E|].
  destruct (N.eq_dec c 247%N) as [E'|E']; [right; right; exact E'|].
  left.
  repeat match type of H with
  | orb _ _ = true => apply orb_true_iff in H; destruct H as [H|H]
  end; apply andb_true_iff in H; destruct H as [H1 H2];
    apply N.leb_le in H1, H2.
  - assert (A : (N.leb 97%N c && N.leb c 122%N)%bool = true)
      by (apply andb_true_iff; split; apply N.leb_le; lia).
    rewrite A. now rewrite !orb_true_r.
  - assert (A : (N.leb 65%N c && N.leb c 90%N)%bool = true)
      by (apply andb_true_iff; split; apply N.leb_le; lia).
    now rewrite A.
  - destruct (N.le_gt_cases c 214%N).
    + assert (A : (N.leb 192%N c && N.leb c 214%N)%bool = true)
        by (apply andb_true_iff; split; apply N.leb_le; lia).
      rewrite A. now rewrite !orb_true_r.
    + destruct (N.le_gt_cases c 246%N).
      * assert (A : (N.leb 216%N c && N.leb c 246%N)%bool = true)
          by (apply andb_true_iff; split; apply N.leb_le; lia).
        rewrite A. now rewrite !orb_true_r.
      * assert (A : (N.leb 248%N c && N.leb c 255%N)%bool = true)
          by (apply andb_true_iff; split; apply N.leb_le; lia).
        rewrite A. now rewrite !orb_true_r.
Qed.

(** ** The frontmatter pattern *)

Lemma frontMatterRegex_parts :
  frontMatterRegex
  = Seq (LineStart true)
      (Seq (Str (u "---"))
         (Seq (Star (Class isWhiteSpace))
            (Seq (Chr LF) (Seq (LazyStar lineRegex) delimiterRegex)))).
Proof. reflexivity. Qed.

Lemma matcher_Str p :
  forall b s c,
    matcher (Str p) (mkState b s) c
    = if startsWith p s then c (mkState (rev p ++ b) (skipn (length p) s))
      else None.
Proof.
  induction p as [|ch p IH]; intros b s c.
  - reflexivity.
  - cbn [Str]. rewrite matcher_Seq, matcher_Chr. destruct s as [|a s']; auto.
    cbn [startsWith]. destruct (char_eqb a ch) eqn:E; auto.
    rewrite IH. apply N.eqb_eq in E. subst a. cbn [andb length skipn rev].
    now rewrite <- app_assoc.
Qed.

Lemma matcher_wsThenLF k s :
  forall b,
    matcher (Star (Class isWhiteSpace)) (mkState b s)
      (fun y => matcher (Chr LF) y k)
    = wsThenLF k b s.
Proof.
  induction s as [|a s IH]; intros b; unfold Star; rewrite matcher_Repeat_0;
    cbv zeta; rewrite matcher_Class, matcher_Chr.
  - reflexivity.
  - cbn [wsThenLF]. destruct (isWhiteSpace a) eqn:W.
    + rewrite endIndex_step. fold (Star (Class isWhiteSpace)). rewrite IH.
      reflexivity.
    + destruct (char_eqb a LF) eqn:E; auto.
      apply N.eqb_eq in E. subst a. discriminate.
Qed.

Lemma matcher_dotThenLF k s :
  forall b,
    matcher (Star (Class isDot)) (mkState b s) (fun y => matcher (Chr LF) y k)
    = dotThenLF k b s.
Proof.
  induction s as [|a s IH]; intros b; unfold Star; rewrite matcher_Repeat_0;
    cbv zeta; rewrite matcher_Class, matcher_Chr.
  - reflexivity.
  - cbn [dotThenLF]. destruct (isDot a) eqn:D.
    + rewrite endIndex_step. fold (Star (Class isDot)). rewrite IH.
      assert (E : char_eqb a LF = false).
      { destruct (char_eqb a LF) eqn:E; auto. apply N.eqb_eq in E. subst a.
        discriminate. }
      rewrite E. now destruct (dotThenLF k (a :: b) s).
    + reflexivity.
Qed.

Lemma afterOf_wsThenLF_Some s :
  forall b, afterOf (wsThenLF Some b s) = skipBlank s.
Proof.
  induction s as [|a s IH]; intros b; simpl; auto.
  destruct (isWhiteSpace a); auto.
  specialize (IH (a :: b)).
  destruct (wsThenLF Some (a :: b) s); simpl in *.
  - now rewrite <- IH.
  - rewrite <- IH. now destruct (char_eqb a LF).
Qed.

Lemma skipBlank_delimiter_end W rest :
  forallb isWhiteSpace W = true ->
  skipBlank (W ++ LF :: rest) = Some (dropBlankLines rest).
Proof.
  induction W as [|a W IH]; intros H.
  - simpl. unfold dropBlankLines. now destruct (skipBlank rest).
  - simpl in H. apply andb_true_iff in H. destruct H as [Ha HW].
    simpl. rewrite Ha. now rewrite IH.
Qed.

(** A delimiter line is matched through the last LF of the white space
    that follows the dashes. *)
Lemma delimiter_matches b W rest :
  forallb isWhiteSpace W = true ->
  afterOf (matcher delimiterRegex (mkState b (u "---" ++ W ++ LF :: rest)) Some)
  = Some (dropBlankLines rest).
Proof.
  intros H. unfold delimiterRegex. rewrite matcher_Seq, matcher_Str.
  change (startsWith (u "---") (u "---" ++ W ++ LF :: rest)) with true.
  cbv iota. change (skipn (length (u "---")) (u "---" ++ W ++ LF :: rest))
    with (W ++ LF :: rest).
  rewrite matcher_Seq, matcher_wsThenLF, afterOf_wsThenLF_Some.
  now apply skipBlank_delimiter_end.
Qed.

Lemma isDot_not_LF a : isDot a = true -> char_eqb a LF = false.
Proof.
  intros D. destruct (char_eqb a LF) eqn:E; auto.
  apply N.eqb_eq in E. subst a. discriminate.
Qed.

Lemma wsThenLF_line_fails k l :
  forallb isDot l = true -> forallb isWhiteSpace l = false ->
  forall b rest, wsThenLF k b (l ++ rest) = None.
Proof.
  induction l as [|a l IH]; intros D W b rest; [discriminate|].
  simpl in D, W. apply andb_true_iff in D. destruct D as [Da Dl].
  simpl. destruct (isWhiteSpace a); auto.
  simpl in W. rewrite IH by auto. now rewrite (isDot_not_LF a Da).
Qed.

Lemma wsThenLF_blank_line k l :
  forallb isDot l = true -> forallb isWhiteSpace l = true ->
  forall b rest, wsThenLF k b (l ++ rest) = wsThenLF k (rev l ++ b) rest.
Proof.
  induction l as [|a l IH]; intros D W b rest; [reflexivity|].
  simpl in D, W. apply andb_true_iff in D. destruct D as [Da Dl].
  apply andb_true_iff in W. destruct W as [Wa Wl].
  simpl. rewrite Wa, IH by auto. rewrite (isDot_not_LF a Da).
  rewrite <- app_assoc. simpl.
  now destruct (wsThenLF k (rev l ++ a :: b) rest).
Qed.

Lemma wsThenLF_success_app k W :
  forallb isWhiteSpace W = true ->
  forall b s z, wsThenLF k (rev W ++ b) s = Some z -> wsThenLF k b (W ++ s) = Some z.
Proof.
  induction W as [|a W IH]; intros H b s z Hz; [exact Hz|].
  simpl in H. apply andb_true_iff in H. destruct H as [Ha HW].
  simpl. rewrite Ha. rewrite (IH HW (a :: b) s z); auto.
  simpl in Hz. now rewrite <- app_assoc in Hz.
Qed.

(** The delimiter does not match at a line of the block. *)
Lemma delimiter_fails_on_body_line l b rest :
  isBodyLine l = true ->
  matcher delimiterRegex (mkState b (l ++ LF :: rest)) Some = None.
Proof.
  unfold isBodyLine, isDelimiterLine. intros H.
  apply andb_true_iff in H. destruct H as [D N]. apply negb_true_iff in N.
  unfold delimiterRegex. rewrite matcher_Seq, matcher_Str.
  destruct (startsWith (u "---") (l ++ LF :: rest)) eqn:S; auto.
  rewrite matcher_Seq, matcher_wsThenLF.
  destruct l as [|a1 [|a2 [|a3 l']]]; try (simpl in S; discriminate S).
  - simpl in S. destruct (char_eqb a1 45); simpl in S; discriminate S.
  - simpl in S. destruct (char_eqb a1 45); simpl in S; try discriminate S.
    destruct (char_eqb a2 45); simpl in S; discriminate S.
  - assert (S3 : startsWith (u "---") (a1 :: a2 :: a3 :: l') = true).
    { simpl in S |- *.
      destruct (char_eqb a1 45), (char_eqb a2 45), (char_eqb a3 45);
        simpl in *; auto. }
    rewrite S3 in N. simpl in N.
    change (skipn (length (u "---")) ((a1 :: a2 :: a3 :: l') ++ LF :: rest))
      with (l' ++ LF :: rest).
    apply wsThenLF_line_fails; auto.
    simpl in D. repeat (apply andb_true_iff in D; destruct D as [_ D]). exact D.
Qed.

(** [.*\n] takes a line of the block and its LF, and nothing else. *)
Lemma dotThenLF_line k l :
  forallb isDot l = true ->
  forall b rest, dotThenLF k b (l ++ LF :: rest) = k (mkState (LF :: rev l ++ b) rest).
Proof.
  induction l as [|a l IH]; intros D b rest.
  - reflexivity.
  - simpl in D. apply andb_true_iff in D. destruct D as [Da Dl].
    simpl. rewrite Da, IH by auto. now rewrite <- app_assoc.
Qed.

Section LeadingBlock.

(** What follows the lines of the block: the closing delimiter, with the
    text [R] left behind it. *)
Variable tail : jsstring.
Variable R : jsstring.
Hypothesis tail_dash : exists t, tail = 45%N :: t.
Hypothesis tail_delimiter :
  forall b, afterOf (matcher delimiterRegex (mkState b tail) Some) = Some R.

(** [(?:.*\n)*?] steps over the lines of the block one by one and stops at
    the delimiter. *)
Lemma lazy_lines_reach_delimiter ls :
  forallb isBodyLine ls = true ->
  forall b,
    afterOf (matcher (Seq (LazyStar lineRegex) delimiterRegex)
               (mkState b (linesText ls ++ tail)) Some)
    = Some R.
Proof.
  induction ls as [|l ls IH]; intros H b; rewrite matcher_Seq; unfold LazyStar;
    rewrite matcher_Repeat_0; cbv zeta.
  - simpl. specialize (tail_delimiter b).
    destruct (matcher delimiterRegex (mkState b tail) Some); [exact tail_delimiter|].
    discriminate tail_delimiter.
  - simpl in H. apply andb_true_iff in H. destruct H as [Hl Hls].
    unfold linesText. cbn [map concat]. fold (linesText ls).
    rewrite <- !app_assoc. cbn [app].
    rewrite (delimiter_fails_on_body_line l b (linesText ls ++ tail) Hl).
    unfold lineRegex at 1. rewrite matcher_Seq, matcher_dotThenLF.
    assert (D : forallb isDot l = true).
    { unfold isBodyLine in Hl. apply andb_true_iff in Hl. tauto. }
    rewrite (dotThenLF_line _ l D).
    assert (E : Nat.eqb (endIndex (mkState (LF :: rev l ++ b) (linesText ls ++ tail)))
                        (endIndex (mkState b (l ++ LF :: linesText ls ++ tail))) = false).
    { unfold endIndex. cbn [before]. apply Nat.eqb_neq. simpl.
      rewrite length_app. lia. }
    rewrite E. specialize (IH Hls (LF :: rev l ++ b)).
    rewrite matcher_Seq in IH. exact IH.
Qed.

(** [\s*\n] after the opening dashes runs over the white-space-only lines
    that open the block; the lines of the block are then read from the
    first line that is not. *)
Lemma opening_reaches_lines ls :
  forallb isBodyLine ls = true ->
  forall b,
    afterOf (wsThenLF (fun y => matcher (Seq (LazyStar lineRegex) delimiterRegex) y Some)
               b (LF :: linesText ls ++ tail))
    = Some R.
Proof.
  induction ls as [|l ls IH]; intros H b.
  - cbn [wsThenLF]. change (isWhiteSpace LF) with true. cbv iota.
    destruct tail_dash as [t Ht]. cbn [linesText map concat app].
    rewrite Ht at 1. cbn [wsThenLF]. change (isWhiteSpace 45) with false. cbv iota.
    change (char_eqb LF LF) with true. cbv iota.
    apply (lazy_lines_reach_delimiter [] H).
  - cbn [wsThenLF]. change (isWhiteSpace LF) with true. cbv iota.
    change (char_eqb LF LF) with true.
    pose proof H as H0.
    simpl in H. apply andb_true_iff in H. destruct H as [Hl Hls].
    assert (D : forallb isDot l = true).
    { unfold isBodyLine in Hl. apply andb_true_iff in Hl. tauto. }
    unfold linesText. cbn [map concat]. fold (linesText ls).
    rewrite <- !app_assoc. cbn [app].
    destruct (forallb isWhiteSpace l) eqn:W.
    + rewrite (wsThenLF_blank_line _ l D W).
      specialize (IH Hls (rev l ++ LF :: b)).
      destruct (wsThenLF _ (rev l ++ LF :: b) (LF :: linesText ls ++ tail));
        [exact IH | discriminate IH].
    + rewrite (wsThenLF_line_fails _ l D W). cbv iota.
      pose proof (lazy_lines_reach_delimiter (l :: ls) H0 (LF :: b)) as L.
      unfold linesText in L. cbn [map concat] in L. fold (linesText ls) in L.
      rewrite <- !app_assoc in L. exact L.
Qed.

End LeadingBlock.

Lemma repeatMatcher_O m greedy min x c :
  repeatMatcher m greedy 0 min x c = None.
Proof. reflexivity. Qed.

Lemma repeatMatcher_S m greedy fuel min x c :
  repeatMatcher m greedy (S fuel) min x c
  = let d : continuation := fun y =>
      if (Nat.eqb min 0 && Nat.eqb (endIndex y) (endIndex x))%bool then None
      else repeatMatcher m greedy fuel (Nat.pred min) y c in
    if negb (Nat.eqb min 0) then m x d
    else if greedy then match m x d with Some z => Some z | None => c x end
    else match c x with Some z => Some z | None => m x d end.
Proof. reflexivity. Qed.

Lemma repeatMatcher_consumes m greedy n :
  consumes n m ->
  forall fuel min, consumes (min * n) (fun x c => repeatMatcher m greedy fuel min x c).
Proof.
  intros Hm fuel. induction fuel as [|fuel IH]; intros min x c z;
    [rewrite repeatMatcher_O; discriminate|].
  rewrite repeatMatcher_S. cbv zeta.
  set (d := fun y : state =>
              if (Nat.eqb min 0 && Nat.eqb (endIndex y) (endIndex x))%bool then None
              else repeatMatcher m greedy fuel (Nat.pred min) y c).
  assert (D : m x d = Some z ->
              exists y, extends x y /\ endIndex x + min * n <= endIndex y
                        /\ c y = Some z).
  { intros H. apply Hm in H. destruct H as [y [Hy [Ly H]]]. unfold d in H.
    destruct (Nat.eqb min 0 && Nat.eqb (endIndex y) (endIndex x))%bool; [discriminate|].
    apply IH in H. destruct H as [w [Hw [Lw H]]]. exists w. splits; auto.
    - eapply extends_trans; eauto.
    - destruct min; simpl in *; lia. }
  destruct (Nat.eqb min 0) eqn:E; cbn [negb]; auto.
  apply Nat.eqb_eq in E.
  assert (X : c x = Some z ->
              exists y, extends x y /\ endIndex x + min * n <= endIndex y
                        /\ c y = Some z).
  { intros H. exists x. splits; auto using extends_refl. subst min. simpl. lia. }
  destruct greedy.
  - destruct (m x d) eqn:M; auto.
  - destruct (c x) eqn:C; auto.
Qed.

Lemma matcher_consumes r : consumes (minLength r) (matcher r).
Proof.
  induction r; intros x c' z.
  - rewrite matcher_Empty. intros H. exists x. splits; auto using extends_refl.
    simpl. lia.
  - destruct x as [b s]. rewrite matcher_Chr.
    destruct s as [|a s]; [discriminate|]. destruct (char_eqb a c); [|discriminate].
    intros H. eexists. splits; [| |exact H].
    + exists [a]. split; reflexivity.
    + unfold endIndex. simpl. lia.
  - destruct x as [b s]. rewrite matcher_Class.
    destruct s as [|a s]; [discriminate|]. destruct (p a); [|discriminate].
    intros H. eexists. splits; [| |exact H].
    + exists [a]. split; reflexivity.
    + unfold endIndex. simpl. lia.
  - destruct x as [b s]. rewrite matcher_LineStart. intros H.
    exists (mkState b s). splits; auto using extends_refl.
    + simpl. lia.
    + destruct b; auto.
      destruct (multiline && isLineTerminator c)%bool; auto; discriminate.
  - rewrite matcher_Seq. intros H. apply IHr1 in H. destruct H as [y [Hy [Ly H]]].
    apply IHr2 in H. destruct H as [w [Hw [Lw H]]]. exists w. splits; auto.
    + eapply extends_trans; eauto.
    + simpl. lia.
  - apply (repeatMatcher_consumes greedy IHr).
Qed.

Lemma execFrom_spec r s :
  forall b x y, execFrom r b s = Some (x, y) ->
    input x = rev b ++ s /\ matchAt r x = Some y.
Proof.
  induction s as [|a s IH]; intros b x y; cbn [execFrom].
  - destruct (matchAt r (mkState b [])) eqn:M; [|discriminate].
    intros H. inversion H; subst. auto.
  - destruct (matchAt r (mkState b (a :: s))) eqn:M.
    + intros H. inversion H; subst. auto.
    + intros H. apply IH in H. simpl in H. now rewrite <- app_assoc in H.
Qed.

Lemma execFrom_here r b s y :
  matchAt r (mkState b s) = Some y -> execFrom r b s = Some (mkState b s, y).
Proof. intros H. destruct s; cbn [execFrom]; now rewrite H. Qed.

(** A match of the frontmatter pattern is at least eight code units long,
    so [replace] returns a shorter text whenever it finds one. *)
Lemma removeFrontMatter_match text x y :
  exec frontMatterRegex text = Some (x, y) ->
  length (removeFrontMatter text) + 8 <= length text.
Proof.
  intros H. unfold removeFrontMatter, replace. rewrite H.
  apply execFrom_spec in H. destruct H as [I M].
  apply matcher_consumes in M. destruct M as [w [Hw [Lw E]]]. inversion E; subst w.
  change (minLength frontMatterRegex) with 8 in Lw.
  pose proof (extends_endIndex Hw) as L. simpl in I. rewrite <- I.
  unfold input, endIndex in *. rewrite !length_app, !length_rev. simpl. lia.
Qed.

Lemma removeFrontMatter_no_match text :
  exec frontMatterRegex text = None -> removeFrontMatter text = text.
Proof. intros H. unfold removeFrontMatter, replace. now rewrite H. Qed.

(** ** The frontmatter stripper *)

(** A block that starts at the start of a line is matched from its opening
    dashes through the closing delimiter. *)
Lemma matchAt_block b ws1 body ws2 rest :
  atLineStart b = true ->
  forallb isWhiteSpace ws1 = true ->
  forallb isBodyLine body = true ->
  forallb isWhiteSpace ws2 = true ->
  afterOf (matchAt frontMatterRegex
             (mkState b (u "---" ++ ws1 ++ LF :: linesText body
                         ++ u "---" ++ ws2 ++ LF :: rest)))
  = Some (dropBlankLines rest).
Proof.
  intros Hb H1 Hbody H2. unfold matchAt. rewrite frontMatterRegex_parts.
  rewrite matcher_Seq, matcher_LineStart.
  assert (L : forall (A : Type) (v : A),
             match b with
             | [] => v
             | a :: _ => if (true && isLineTerminator a)%bool then v else v
             end = v).
  { intros A v. destruct b; auto. now destruct (true && isLineTerminator c)%bool. }
  assert (G : afterOf (matcher
                (Seq (Str (u "---"))
                   (Seq (Star (Class isWhiteSpace))
                      (Seq (Chr LF) (Seq (LazyStar lineRegex) delimiterRegex))))
                (mkState b (u "---" ++ ws1 ++ LF :: linesText body
                            ++ u "---" ++ ws2 ++ LF :: rest)) Some)
              = Some (dropBlankLines rest)).
  { rewrite matcher_Seq, matcher_Str.
    change (startsWith (u "---") (u "---" ++ ws1 ++ LF :: linesText body
                                  ++ u "---" ++ ws2 ++ LF :: rest)) with true.
    cbv iota.
    change (skipn (length (u "---")) (u "---" ++ ws1 ++ LF :: linesText body
                                      ++ u "---" ++ ws2 ++ LF :: rest))
      with (ws1 ++ LF :: linesText body ++ u "---" ++ ws2 ++ LF :: rest).
    rewrite matcher_Seq.
    change (fun y => matcher (Seq (Chr LF) (Seq (LazyStar lineRegex) delimiterRegex))
                       y Some)
      with (fun y => matcher (Chr LF) y
                       (fun y' => matcher (Seq (LazyStar lineRegex) delimiterRegex)
                                    y' Some)).
    rewrite matcher_wsThenLF.
    pose proof (@opening_reaches_lines (u "---" ++ ws2 ++ LF :: rest)
                  (dropBlankLines rest)
                  (ex_intro _ (45%N :: 45%N :: ws2 ++ LF :: rest) eq_refl)
                  (fun b' => delimiter_matches b' ws2 rest H2)
                  body Hbody (rev ws1 ++ rev (u "---") ++ b)) as O.
    destruct (wsThenLF
                (fun y' => matcher (Seq (LazyStar lineRegex) delimiterRegex) y' Some)
                (rev ws1 ++ rev (u "---") ++ b)
                (LF :: linesText body ++ u "---" ++ ws2 ++ LF :: rest)) as [z|] eqn:Z;
      [|discriminate O].
    rewrite (wsThenLF_success_app _ ws1 H1 _ _ Z). exact O. }
  destruct b as [|a b']; [exact G|].
  simpl in Hb. rewrite Hb. exact G.
Qed.

Lemma skipBlank_None_dropBlankLines rest :
  skipBlank rest = None -> dropBlankLines rest = rest.
Proof. unfold dropBlankLines. now intros ->. Qed.

(** C6, as the code has it: when the text begins with a [---] line
    (trailing white space allowed), goes on with lines that end in LF and
    hold no other line terminator, and reaches a first further [---] line
    that ends in LF, [removeFrontMatter] removes the block from the first
    delimiter through that line, and with it the white-space-only lines
    that directly follow; when no such lines follow, exactly the block is
    removed. *)
Theorem C6_leading_block_removed :
  forall ws1 body ws2 rest,
    forallb isWhiteSpace ws1 = true ->
    forallb isBodyLine body = true ->
    forallb isWhiteSpace ws2 = true ->
    let text := u "---" ++ ws1 ++ LF :: linesText body
                ++ u "---" ++ ws2 ++ LF :: rest in
    removeFrontMatter text = dropBlankLines rest
    /\ (skipBlank rest = None -> removeFrontMatter text = rest).
Proof.
  intros ws1 body ws2 rest H1 Hb H2 text.
  assert (E : removeFrontMatter text = dropBlankLines rest).
  { pose proof (@matchAt_block [] ws1 body ws2 rest eq_refl H1 Hb H2) as M.
    fold text in M. unfold removeFrontMatter, replace, exec.
    destruct (matchAt frontMatterRegex (mkState [] text)) as [z|] eqn:Z;
      [|discriminate M].
    rewrite (execFrom_here _ _ _ Z). simpl in M. inversion M. reflexivity. }
  split; auto. intros S. rewrite E. now apply skipBlank_None_dropBlankLines.
Qed.

Lemma C6_leading_block_removed_witness :
  removeFrontMatter (u "---" ++ LF :: u "title: x" ++ LF :: u "---" ++ LF :: u "body")
  = u "body".
Proof.
  apply (C6_leading_block_removed [] [u "title: x"] [] (u "body")); reflexivity.
Defined.

(** C6 as it is worded fails twice: a blank line after the closing
    delimiter goes with the block, and a closing delimiter that is the last
    line of the text, with no LF after it, closes nothing. *)
Lemma C6_counterexample :
  removeFrontMatter
    ((u "---" ++ LF :: u "title: x" ++ LF :: u "---" ++ [LF]) ++ LF :: u "body")
  <> LF :: u "body"
  /\ removeFrontMatter (u "---" ++ LF :: u "title: x" ++ LF :: u "---")
     = u "---" ++ LF :: u "title: x" ++ LF :: u "---".
Proof. split; [vm_compute; discriminate | reflexivity]. Qed.

(** C1: the pattern carries the [m] flag, so [^] matches at the start of
    any line: a block that opens on the second line of the text is removed,
    although the text does not begin with a delimiter. *)
Theorem C1_block_after_first_line_is_removed :
  let text := u "intro" ++ LF :: u "---" ++ LF :: u "title: x" ++ LF
              :: u "---" ++ LF :: u "body" in
  startsWith (u "---") text = false
  /\ removeFrontMatter text = u "intro" ++ LF :: u "body"
  /\ removeFrontMatter text <> text.
Proof.
  intros text. splits; [reflexivity | reflexivity | vm_compute; discriminate].
Qed.

(** The same at any line start: a block after any text that ends in a line
    terminator is matched there. *)
Lemma block_matches_at_any_line_start before_ a ws1 body ws2 rest :
  isLineTerminator a = true ->
  forallb isWhiteSpace ws1 = true ->
  forallb isBodyLine body = true ->
  forallb isWhiteSpace ws2 = true ->
  afterOf (matchAt frontMatterRegex
             (mkState (a :: before_)
                (u "---" ++ ws1 ++ LF :: linesText body
                 ++ u "---" ++ ws2 ++ LF :: rest)))
  = Some (dropBlankLines rest).
Proof. intros Ha. now apply matchAt_block. Qed.

(** C2 as it is worded fails: of two blocks that follow each other, each
    call removes one. *)
Lemma C2_counterexample :
  let text := u "---" ++ LF :: u "a" ++ LF :: u "---" ++ LF
              :: u "---" ++ LF :: u "b" ++ LF :: u "---" ++ LF :: u "body" in
  removeFrontMatter text = u "---" ++ LF :: u "b" ++ LF :: u "---" ++ LF :: u "body"
  /\ removeFrontMatter (removeFrontMatter text) = u "body"
  /\ removeFrontMatter (removeFrontMatter text) <> removeFrontMatter text.
Proof.
  intros text. splits; [reflexivity | reflexivity | vm_compute; discriminate].
Qed.

(** C2, as the code has it: one call removes one block, the first that
    [exec] finds, and a block is at least eight code units long.  A second
    call returns the result of the first exactly when no block is left in
    it; a text without a block is returned as it is. *)
Theorem C2_idempotent_when_no_block_is_left :
  forall text,
    (removeFrontMatter (removeFrontMatter text) = removeFrontMatter text
     <-> exec frontMatterRegex (removeFrontMatter text) = None)
    /\ (exec frontMatterRegex text = None -> removeFrontMatter text = text)
    /\ (exec frontMatterRegex text <> None ->
        length (removeFrontMatter text) + 8 <= length text).
Proof.
  intros text. splits.
  - split.
    + intros H. destruct (exec frontMatterRegex (removeFrontMatter text))
        as [[x y]|] eqn:E; auto.
      apply removeFrontMatter_match in E. rewrite H in E. lia.
    + apply removeFrontMatter_no_match.
  - apply removeFrontMatter_no_match.
  - intros H. destruct (exec frontMatterRegex text) as [[x y]|] eqn:E;
      [|contradiction].
    eapply removeFrontMatter_match; eauto.
Qed.

Lemma C2_idempotent_when_no_block_is_left_witness :
  let text := u "---" ++ LF :: u "title: x" ++ LF :: u "---" ++ LF :: u "body" in
  removeFrontMatter (removeFrontMatter text) = removeFrontMatter text
  /\ length (removeFrontMatter text) + 8 <= length text.
Proof.
  intros text. split.
  - apply (C2_idempotent_when_no_block_is_left text). reflexivity.
  - apply (C2_idempotent_when_no_block_is_left text). vm_compute. discriminate.
Defined.

(** ** The update trigger *)

Lemma forallb_negb_existsb s :
  forallb isWhiteSpace s = negb (existsb notWhiteSpace s).
Proof.
  induction s as [|a s IH]; simpl; auto. rewrite IH. unfold notWhiteSpace.
  destruct (isWhiteSpace a); reflexivity.
Qed.

Lemma existsb_rev (p : char -> bool) s : existsb p (rev s) = existsb p s.
Proof.
  induction s as [|a s IH]; simpl; auto.
  rewrite existsb_app, IH. simpl. rewrite orb_false_r. apply orb_comm.
Qed.

Lemma existsb_trimStart s :
  existsb notWhiteSpace (trimStart s) = existsb notWhiteSpace s.
Proof.
  induction s as [|a s IH]; simpl; auto. unfold notWhiteSpace at 2.
  destruct (isWhiteSpace a) eqn:E; simpl; auto.
  unfold notWhiteSpace at 1. now rewrite E.
Qed.

Lemma trimStart_nonEmpty s : nonEmpty (trimStart s) = existsb notWhiteSpace s.
Proof.
  induction s as [|a s IH]; simpl; auto. unfold notWhiteSpace at 1.
  destruct (isWhiteSpace a); simpl; auto.
Qed.

(** [trim] leaves something exactly when the string holds a code unit that
    is no white space. *)
Lemma trim_nonEmpty s : nonEmpty (trim s) = existsb notWhiteSpace s.
Proof.
  unfold trim, nonEmpty. rewrite length_rev. fold (nonEmpty (trimStart (rev (trimStart s)))).
  now rewrite trimStart_nonEmpty, existsb_rev, existsb_trimStart.
Qed.

Lemma hasSelection_spec selection :
  hasSelection selection = existsb notWhiteSpace selection.
Proof.
  unfold hasSelection. fold (nonEmpty (trim selection)). rewrite trim_nonEmpty.
  destruct selection; simpl; auto.
Qed.

Lemma updateWordCount_spec this :
  settings (updateWordCount this) = settings this
  /\ activeView (updateWordCount this) = activeView this
  /\ statusBarItem (updateWordCount this)
     = expectedLabel (settings this) (activeView this).
Proof.
  unfold updateWordCount, expectedLabel.
  destruct (activeView this) as [editor|] eqn:V; simpl; auto.
  rewrite hasSelection_spec.
  destruct (existsb notWhiteSpace (getSelection editor)); simpl; auto.
Qed.

Lemma handle_upToDate this e : upToDate (handle this e).
Proof.
  unfold upToDate.
  destruct e; cbn [handle];
    match goal with
    | |- context [updateWordCount ?p] =>
        destruct (updateWordCount_spec p) as [S [V T]]; rewrite S, V, T
    end; reflexivity.
Qed.

Lemma run_upToDate events :
  forall this, upToDate this -> upToDate (run this events).
Proof.
  induction events as [|e events IH]; intros this H; simpl; auto.
  apply IH, handle_upToDate.
Qed.

Lemma onload_upToDate loaded view : upToDate (onload loaded view).
Proof.
  unfold upToDate, onload.
  match goal with
  | |- context [updateWordCount ?p] =>
      destruct (updateWordCount_spec p) as [S [V T]]; rewrite S, V, T
  end. reflexivity.
Qed.

(** C8, as the code has it: after [onload] and any sequence of events,
    when the selection of the active editor holds a code unit that is no
    white space, the status bar shows the word count of the selection as it
    is, whatever [excludeFrontmatter] says; [removeFrontMatter] is applied
    to the text of the document only, and only when the selection is empty
    or all white space. *)
Theorem C8_selection_is_counted_unstripped :
  forall loaded view events editor,
    let this := run (onload loaded view) events in
    activeView this = Some editor ->
    (existsb notWhiteSpace (getSelection editor) = true ->
     statusBarItem this
     = wordsLabel (countWords (settings this) (getSelection editor)))
    /\ (existsb notWhiteSpace (getSelection editor) = false ->
        statusBarItem this
        = wordsLabel (countWords (settings this)
                        (if excludeFrontmatter (settings this)
                         then removeFrontMatter (getValue editor)
                         else getValue editor))).
Proof.
  intros loaded view events editor this V.
  pose proof (run_upToDate events (onload_upToDate loaded view)) as U.
  fold this in U. unfold upToDate, expectedLabel in U. rewrite V in U.
  split; intros E; rewrite E in U; exact U.
Qed.

Lemma C8_selection_is_counted_unstripped_witness :
  let selection := u "---" ++ LF :: u "a" ++ LF :: u "---" ++ LF :: u "b" in
  let editor := mkEditor selection (u "one two three") in
  let this := run (onload DEFAULT_SETTINGS None)
                [ActiveLeafChange (Some (mkEditor [] (u "one two three")));
                 SelectionChange (Some editor)] in
  statusBarItem this = wordsLabel (countWords DEFAULT_SETTINGS selection)
  /\ statusBarItem this = u "2 words"
  /\ countWords DEFAULT_SETTINGS (removeFrontMatter selection) = 1.
Proof.
  intros selection editor this. splits.
  - apply (@C8_selection_is_counted_unstripped DEFAULT_SETTINGS None
             [ActiveLeafChange (Some (mkEditor [] (u "one two three")));
              SelectionChange (Some editor)] editor); reflexivity.
  - reflexivity.
  - reflexivity.
Defined.

(** C8 as it is worded fails for a selection that is not empty but all
    white space: the guard [selection.trim().length > 0] sends it to the
    document path, and the count of the document is shown. *)
Lemma C8_counterexample :
  let editor := mkEditor (u " ") (u "hello world") in
  let this := onload DEFAULT_SETTINGS (Some editor) in
  getSelection editor <> []
  /\ statusBarItem this = u "2 words"
  /\ wordsLabel (countWords (settings this) (getSelection editor)) = u "0 words"
  /\ statusBarItem this
     <> wordsLabel (countWords (settings this) (getSelection editor)).
Proof.
  intros editor this.
  splits; [discriminate | reflexivity | reflexivity | vm_compute; discriminate].
Qed.

(** ** The word-frequency object *)

Lemma assoc_update (k k' : jsstring) (p : prim) (o : object) :
  assoc k' (update k p o)
  = if jsstring_eqb k' k
    then match assoc k o with Some _ => Some p | None => None end
    else assoc k' o.
Proof.
  induction o as [|[k0 v] o IH]; simpl.
  - now destruct (jsstring_eqb k' k).
  - destruct (jsstring_eqb k k0) eqn:E; simpl.
    + apply jsstring_eqb_eq in E. subst k0.
      now destruct (jsstring_eqb k' k).
    + rewrite IH. destruct (jsstring_eqb k' k0) eqn:E0; auto.
      apply jsstring_eqb_eq in E0. subst k0.
      now rewrite jsstring_eqb_sym, E.
Qed.

Lemma assoc_app (A : Type) (k : jsstring) (o1 o2 : list (jsstring * A)) :
  assoc k (o1 ++ o2)
  = match assoc k o1 with Some v => Some v | None => assoc k o2 end.
Proof.
  induction o1 as [|[k0 v] o1 IH]; simpl; auto.
  now destruct (jsstring_eqb k k0).
Qed.

Lemma assoc_set (k k' : jsstring) (p : prim) (o : object) :
  assoc k' (set o k p)
  = if jsstring_eqb k' k
    then match assoc k o with
         | Some _ => Some p
         | None => if jsstring_eqb k protoKey then None else Some p
         end
    else assoc k' o.
Proof.
  unfold set. destruct (assoc k o) eqn:A.
  - rewrite assoc_update, A. reflexivity.
  - destruct (jsstring_eqb k' k) eqn:E.
    + apply jsstring_eqb_eq in E. subst k'.
      destruct (jsstring_eqb k protoKey); auto.
      rewrite assoc_app, A. simpl. now rewrite jsstring_eqb_refl.
    + destruct (jsstring_eqb k protoKey); auto.
      rewrite assoc_app. simpl. rewrite E. now destruct (assoc k' o).
Qed.

Lemma assoc_In (A : Type) (k : jsstring) (v : A) (o : list (jsstring * A)) :
  assoc k o = Some v -> In (k, v) o.
Proof.
  induction o as [|[k0 v0] o IH]; simpl; [discriminate|].
  destruct (jsstring_eqb k k0) eqn:E.
  - apply jsstring_eqb_eq in E. intros H. inversion H; subst. now left.
  - intros H. right. auto.
Qed.

Lemma assoc_None_not_In (A : Type) (k : jsstring) (o : list (jsstring * A)) :
  assoc k o = None -> ~ In k (map fst o).
Proof.
  induction o as [|[k0 v0] o IH]; simpl; auto.
  destruct (jsstring_eqb k k0) eqn:E; [discriminate|].
  intros H [F|F].
  - subst k0. now rewrite jsstring_eqb_refl in E.
  - now apply IH.
Qed.

Lemma In_assoc (A : Type) (k : jsstring) (v : A) (o : list (jsstring * A)) :
  NoDup (map fst o) -> In (k, v) o -> assoc k o = Some v.
Proof.
  induction o as [|[k0 v0] o IH]; simpl; [tauto|].
  intros N [H|H].
  - inversion H; subst. now rewrite jsstring_eqb_refl.
  - inversion N; subst. destruct (jsstring_eqb k k0) eqn:E; auto.
    apply jsstring_eqb_eq in E. subst k0. exfalso. apply H2.
    change k with (fst (k, v)). now apply in_map.
Qed.

Lemma update_keys (k : jsstring) (p : prim) (o : object) :
  map fst (update k p o) = map fst o.
Proof.
  induction o as [|[k0 v] o IH]; simpl; auto.
  destruct (jsstring_eqb k k0); simpl; congruence.
Qed.

Lemma set_NoDup (k : jsstring) (p : prim) (o : object) :
  NoDup (map fst o) -> NoDup (map fst (set o k p)).
Proof.
  intros N. unfold set. destruct (assoc k o) eqn:A.
  - now rewrite update_keys.
  - destruct (jsstring_eqb k protoKey); auto.
    rewrite map_app. simpl. apply NoDup_app. splits; auto.
    + constructor; [simpl; tauto | constructor].
    + intros x Hx [F|[]]. subst x. now apply (assoc_None_not_In k o A).
Qed.

Section Aggregation.

Variable toLowerCase : jsstring -> jsstring.

Lemma occurrences_snoc k ws w :
  occurrences toLowerCase k (ws ++ [w])
  = occurrences toLowerCase k ws
    + (if jsstring_eqb (toLowerCase w) k then 1 else 0).
Proof.
  unfold occurrences. rewrite filter_app, length_app. simpl.
  now destruct (jsstring_eqb (toLowerCase w) k).
Qed.

Lemma nativeSource_cons name : exists c s, nativeSource name = c :: s.
Proof. unfold nativeSource. simpl. eauto. Qed.

Lemma method_not_protoKey k name :
  assoc k objectPrototypeMethods = Some name -> jsstring_eqb k protoKey = false.
Proof.
  intros H. destruct (jsstring_eqb k protoKey) eqn:E; auto.
  apply jsstring_eqb_eq in E. subst k. discriminate H.
Qed.

Lemma repeat_snoc (A : Type) (a : A) n : repeat a n ++ [a] = a :: repeat a n.
Proof. induction n; simpl; congruence. Qed.

(** The object after the words [ws]: a key that [Object.prototype] does
    not hold has the number of its occurrences; the name of a method of
    [Object.prototype] has the source text of the method, followed by a 1
    for each occurrence; [__proto__] has nothing. *)
Lemma fold_countWord_expected ws :
  forall k, assoc k (fold_left (countWord toLowerCase) ws []) = expected toLowerCase ws k.
Proof.
  induction ws as [|w ws IH] using rev_ind; intros k; [reflexivity|].
  rewrite fold_left_app. cbn [fold_left]. unfold countWord at 1.
  set (o := fold_left (countWord toLowerCase) ws []) in *.
  set (k0 := toLowerCase w).
  rewrite assoc_set. unfold expected. rewrite occurrences_snoc. fold k0.
  rewrite (jsstring_eqb_sym k k0).
  destruct (jsstring_eqb k0 k) eqn:E.
  - apply jsstring_eqb_eq in E. subst k.
    unfold get. rewrite (IH k0). unfold expected.
    rewrite Nat.add_1_r.
    destruct (assoc k0 objectPrototypeMethods) as [name|] eqn:M.
    + rewrite (method_not_protoKey k0 M).
      destruct (occurrences toLowerCase k0 ws) as [|n]; cbn [orZeroPlusOne].
      * reflexivity.
      * destruct (nativeSource_cons name) as [c [s Hs]].
        rewrite Hs. cbn [app]. rewrite <- app_assoc.
        change (u "1") with [49%N]. now rewrite repeat_snoc.
    + destruct (jsstring_eqb k0 protoKey) eqn:P.
      * destruct (occurrences toLowerCase k0 ws); reflexivity.
      * destruct (occurrences toLowerCase k0 ws) as [|n]; cbn [orZeroPlusOne].
        -- reflexivity.
        -- do 2 f_equal. lia.
  - rewrite Nat.add_0_r. apply IH.
Qed.

Lemma fold_countWord_NoDup ws :
  NoDup (map fst (fold_left (countWord toLowerCase) ws [])).
Proof.
  induction ws as [|w ws IH] using rev_ind; [constructor|].
  rewrite fold_left_app. cbn [fold_left]. unfold countWord at 1.
  now apply set_NoDup.
Qed.

End Aggregation.

(** ** Entries and their order *)

Lemma insertIndex_Permutation (A : Type) (e : N * A) l :
  Permutation (insertIndex e l) (e :: l).
Proof.
  induction l as [|e' l IH]; simpl; auto.
  destruct (N.ltb (fst e) (fst e')); auto.
  rewrite IH. apply perm_swap.
Qed.

Lemma indexEntries_Permutation o :
  Permutation (map snd (indexEntries o)) (filter (fun e => negb (isNamed e)) o).
Proof.
  induction o as [|[k v] o IH]; simpl; auto.
  unfold isNamed at 1. simpl. destruct (arrayIndex k) eqn:E; simpl; auto.
  rewrite insertIndex_Permutation. simpl. now constructor.
Qed.

Lemma filter_partition_Permutation (A : Type) (f : A -> bool) l :
  Permutation (filter (fun e => negb (f e)) l ++ filter f l) l.
Proof.
  induction l as [|a l IH]; simpl; auto.
  destruct (f a); simpl.
  - rewrite <- Permutation_middle. now constructor.
  - now constructor.
Qed.

(** [Object.entries] lists every own property once. *)
Lemma entries_Permutation o : Permutation (entries o) o.
Proof.
  unfold entries. rewrite indexEntries_Permutation.
  apply filter_partition_Permutation.
Qed.

Lemma totalCount_Permutation o1 o2 :
  Permutation o1 o2 -> totalCount o1 = totalCount o2.
Proof.
  intros P. induction P; simpl; lia || congruence.
Qed.

Lemma totalCount_entries o : totalCount (entries o) = totalCount o.
Proof. apply totalCount_Permutation, entries_Permutation. Qed.

Lemma totalCount_app o1 o2 :
  totalCount (o1 ++ o2) = (totalCount o1 + totalCount o2)%N.
Proof. induction o1 as [|e o1 IH]; simpl; lia. Qed.

Lemma totalCount_update k p o q :
  assoc k o = Some q ->
  (totalCount (update k p o) + countOf (k, q) = totalCount o + countOf (k, p))%N.
Proof.
  induction o as [|[k0 v] o IH]; simpl; [discriminate|].
  destruct (jsstring_eqb k k0) eqn:E.
  - intros H. inversion H; subst. simpl. unfold countOf; simpl. lia.
  - intros H. apply IH in H. simpl. unfold countOf in *. simpl in *. lia.
Qed.

(** ** The sort of the modal *)

Lemma sortInsert_Permutation (A : Type) (cmp : A -> A -> Z) x l :
  Permutation (sortInsert cmp x l) (x :: l).
Proof.
  induction l as [|y l IH]; simpl; auto.
  destruct (Z.ltb 0 (cmp x y)); auto.
  rewrite IH. apply perm_swap.
Qed.

Lemma sort_Permutation (A : Type) (cmp : A -> A -> Z) l :
  Permutation (sort cmp l) l.
Proof.
  induction l as [|x l IH]; simpl; auto.
  rewrite sortInsert_Permutation. now constructor.
Qed.

Lemma sortInsert_Sorted x l :
  Sorted descending l -> Forall (fun e => exists n, snd e = Num n) (x :: l) ->
  Sorted descending (sortInsert byCountDescending x l).
Proof.
  induction l as [|y l IH]; intros S F; simpl.
  - repeat constructor.
  - inversion F as [|? ? [nx Hx] F']; subst. inversion F' as [|? ? [ny Hy] F'']; subst.
    inversion S; subst.
    destruct (Z.ltb 0 (byCountDescending x y)) eqn:C.
    + assert (D : descending y x).
      { apply Z.ltb_lt in C. unfold byCountDescending, descending, countOf in *.
        rewrite Hx, Hy in *. lia. }
      constructor.
      * apply IH; auto. constructor; eauto.
      * destruct l as [|z l]; simpl.
        -- now constructor.
        -- destruct (Z.ltb 0 (byCountDescending x z)); constructor; auto.
           inversion H2; subst. assumption.
    + constructor; auto. constructor.
      apply Z.ltb_ge in C. unfold byCountDescending, descending, countOf in *.
      rewrite Hx, Hy in *. lia.
Qed.

Lemma sort_Sorted l :
  Forall (fun e => exists n, snd e = Num n) l ->
  Sorted descending (sort byCountDescending l).
Proof.
  induction l as [|x l IH]; intros F; simpl; [constructor|].
  inversion F; subst. apply sortInsert_Sorted; auto.
  constructor; auto.
  eapply Permutation_Forall; [|eassumption].
  symmetry. apply sort_Permutation.
Qed.

Lemma moreThanOnce_Num e :
  moreThanOnce e = true -> exists n, snd e = Num n /\ (1 < n)%N.
Proof.
  unfold moreThanOnce. destruct (snd e) as [n|s]; [|discriminate].
  intros H. apply N.ltb_lt in H. eauto.
Qed.

Lemma filter_Permutation (A : Type) (f : A -> bool) l l' :
  Permutation l l' -> Permutation (filter f l) (filter f l').
Proof.
  intros P. induction P; simpl; auto.
  - destruct (f x); auto.
  - destruct (f x), (f y); auto. apply perm_swap.
  - etransitivity; eauto.
Qed.

Lemma descending_trans : Relations_1.Transitive descending.
Proof. intros a b c. unfold descending. lia. Qed.

(** The rows of the modal: the entries of the object with a count above
    1, each once, in descending order of count. *)
Lemma sortedWords_spec wordFrequency :
  Permutation (sortedWords wordFrequency) (filter moreThanOnce wordFrequency)
  /\ Forall (fun e => exists n, snd e = Num n /\ (1 < n)%N) (sortedWords wordFrequency)
  /\ StronglySorted descending (sortedWords wordFrequency).
Proof.
  unfold sortedWords.
  assert (F : Forall (fun e => exists n, snd e = Num n /\ (1 < n)%N)
                (filter moreThanOnce (entries wordFrequency))).
  { apply Forall_forall. intros e He. apply filter_In in He.
    apply moreThanOnce_Num. tauto. }
  splits.
  - rewrite sort_Permutation. apply filter_Permutation, entries_Permutation.
  - eapply Permutation_Forall; [|exact F]. symmetry. apply sort_Permutation.
  - apply Sorted_StronglySorted; [exact descending_trans|].
    apply sort_Sorted. eapply Forall_impl; [|exact F].
    intros e [n [H _]]. eauto.
Qed.

(** ** Word frequencies *)

Lemma getWordFrequency_words toLowerCase settings text :
  getWordFrequency toLowerCase settings text
  = fold_left (countWord toLowerCase) (words settings text) [].
Proof. reflexivity. Qed.

Lemma fold_countWord_ext lower1 lower2 ws :
  Forall (fun w => lower1 w = lower2 w) ws ->
  forall o, fold_left (countWord lower1) ws o = fold_left (countWord lower2) ws o.
Proof.
  induction 1 as [|w ws Hw _ IH]; intros o; simpl; auto.
  unfold countWord at 2 4. rewrite Hw. apply IH.
Qed.

Lemma LowersAscii_asciiToLowerCase : LowersAscii asciiToLowerCase.
Proof. intros s _. reflexivity. Qed.

(** On a text whose words are ASCII, any lower-casing function that is
    right on ASCII gives the object that ASCII lower-casing gives. *)
Lemma getWordFrequency_ascii toLowerCase settings text :
  LowersAscii toLowerCase ->
  forallb (forallb isAscii) (words settings text) = true ->
  getWordFrequency toLowerCase settings text
  = getWordFrequency asciiToLowerCase settings text.
Proof.
  intros L A. rewrite !getWordFrequency_words. apply fold_countWord_ext.
  apply Forall_forall. intros w Hw. apply L.
  rewrite forallb_forall in A. auto.
Qed.

Lemma totalCount_countWord toLowerCase ws w :
  let o := fold_left (countWord toLowerCase) ws [] in
  totalCount (countWord toLowerCase o w)
  = (totalCount o + (if isPrototypeName (toLowerCase w) then 0 else 1))%N.
Proof.
  intros o. unfold countWord. set (k0 := toLowerCase w).
  pose proof (fold_countWord_expected toLowerCase ws k0) as A. fold o in A.
  unfold expected in A. unfold isPrototypeName.
  destruct (assoc k0 objectPrototypeMethods) as [name|] eqn:M.
  - pose proof (method_not_protoKey k0 M) as P.
    destruct (occurrences toLowerCase k0 ws) as [|n].
    + unfold set, get. rewrite A, M, P. cbn [orZeroPlusOne].
      rewrite totalCount_app. simpl. unfold countOf. simpl. lia.
    + destruct (nativeSource_cons name) as [c [s Hs]]. rewrite Hs in A.
      cbn [app] in A. unfold set, get. rewrite A. cbn [orZeroPlusOne].
      pose proof (totalCount_update k0
                    (Text ((c :: s ++ repeat 49%N (S n)) ++ u "1")) o A) as T.
      unfold countOf in T. simpl in T. simpl. lia.
  - destruct (jsstring_eqb k0 protoKey) eqn:P.
    + assert (A0 : assoc k0 o = None)
        by (destruct (occurrences toLowerCase k0 ws); auto).
      unfold set, get. rewrite A0, M, P. lia.
    + destruct (occurrences toLowerCase k0 ws) as [|n].
      * unfold set, get. rewrite A, M, P. cbn [orZeroPlusOne].
        rewrite totalCount_app. simpl. unfold countOf. simpl. lia.
      * unfold set, get. rewrite A. cbn [orZeroPlusOne].
        pose proof (totalCount_update k0 (Num (N.of_nat (S n) + 1)) o A) as T.
        unfold countOf in T. simpl in T. simpl. lia.
Qed.

(** The sum of the counts of the object and the number of words whose
    lower-cased form names a property of [Object.prototype] make up the
    number of words. *)
Lemma totalCount_fold_countWord toLowerCase ws :
  (totalCount (fold_left (countWord toLowerCase) ws [])
   + N.of_nat (length (filter (fun w => isPrototypeName (toLowerCase w)) ws)))%N
  = N.of_nat (length ws).
Proof.
  induction ws as [|w ws IH] using rev_ind; [reflexivity|].
  rewrite fold_left_app. cbn [fold_left]. rewrite totalCount_countWord.
  rewrite filter_app, !length_app. simpl.
  destruct (isPrototypeName (toLowerCase w)); simpl; lia.
Qed.

Lemma totalCount_getWordFrequency toLowerCase settings text :
  (totalCount (getWordFrequency toLowerCase settings text)
   + N.of_nat (length (filter (fun w => isPrototypeName (toLowerCase w))
                         (words settings text))))%N
  = N.of_nat (countWords settings text).
Proof.
  rewrite getWordFrequency_words, countWords_words.
  apply totalCount_fold_countWord.
Qed.

(** Where no word names a property of [Object.prototype], the counts of
    the object add up to the word count. *)
Lemma totalCount_without_prototype_names toLowerCase settings text :
  (forall w, In w (words settings text) -> isPrototypeName (toLowerCase w) = false) ->
  totalCount (getWordFrequency toLowerCase settings text)
  = N.of_nat (countWords settings text).
Proof.
  intros H. rewrite <- totalCount_getWordFrequency with (toLowerCase := toLowerCase).
  replace (filter (fun w => isPrototypeName (toLowerCase w)) (words settings text))
    with (@nil jsstring); [simpl; lia|].
  symmetry. induction (words settings text) as [|w ws IH]; simpl; auto.
  rewrite (H w) by (now left). apply IH. intros w' Hw'. apply H. now right.
Qed.

(** A string in the object is the source text of a method of
    [Object.prototype] followed by 1s; as a number it is NaN, which is what
    [moreThanOnce] takes a string for. *)
Lemma getWordFrequency_Text toLowerCase settings text k s :
  In (k, Text s) (getWordFrequency toLowerCase settings text) ->
  exists name n,
    assoc k objectPrototypeMethods = Some name
    /\ s = nativeSource name ++ repeat 49%N (S n).
Proof.
  intros H. rewrite getWordFrequency_words in H.
  apply In_assoc in H; [|apply fold_countWord_NoDup].
  rewrite fold_countWord_expected in H. unfold expected in H.
  destruct (occurrences toLowerCase k (words settings text)) as [|n];
    [discriminate|].
  destruct (assoc k objectPrototypeMethods) as [name|].
  - inversion H. exists name, n. split; reflexivity.
  - destruct (jsstring_eqb k protoKey); discriminate.
Qed.

(** For a key that [Object.prototype] does not hold the object has the
    number of words whose lower-cased form is the key, and a number in the
    object is always that count.  The rows of the modal are the entries of
    the object with a count above 1, each once, in descending order of
    count. *)
Lemma getWordFrequency_counts_and_rows toLowerCase settings text :
  (forall k n,
     In (k, Num n) (entries (getWordFrequency toLowerCase settings text)) ->
     n = N.of_nat (occurrences toLowerCase k (words settings text)))
  /\ (forall k,
        isPrototypeName k = false ->
        0 < occurrences toLowerCase k (words settings text) ->
        In (k, Num (N.of_nat (occurrences toLowerCase k (words settings text))))
           (entries (getWordFrequency toLowerCase settings text)))
  /\ (let wordFrequency := getWordFrequency toLowerCase settings text in
      Permutation (sortedWords wordFrequency)
                  (filter moreThanOnce wordFrequency)
      /\ Forall (fun e => exists n, snd e = Num n /\ (1 < n)%N)
                (sortedWords wordFrequency)
      /\ StronglySorted descending (sortedWords wordFrequency)).
Proof.
  splits.
  - intros k n H.
    apply (Permutation_in _ (entries_Permutation _)) in H.
    rewrite getWordFrequency_words in H.
    apply In_assoc in H; [|apply fold_countWord_NoDup].
    rewrite fold_countWord_expected in H. unfold expected in H.
    destruct (occurrences toLowerCase k (words settings text)); [discriminate|].
    destruct (assoc k objectPrototypeMethods); [discriminate|].
    destruct (jsstring_eqb k protoKey); [discriminate|]. now inversion H.
  - intros k P O.
    apply (Permutation_in _ (Permutation_sym (entries_Permutation _))).
    apply assoc_In. rewrite getWordFrequency_words, fold_countWord_expected.
    unfold expected. unfold isPrototypeName in P.
    destruct (occurrences toLowerCase k (words settings text)); [lia|].
    destruct (assoc k objectPrototypeMethods); [discriminate|].
    now rewrite P.
  - intros wordFrequency. apply sortedWords_spec.
Qed.

(** C4: the text "The the THE cat" gives the: 3, cat: 1 and the one row
    the: 3, as the claim has it.  The text "Constructor constructor" does
    not: its two words lower-case to [constructor], but the read
    [wordFrequency["constructor"]] finds the function [Object] on the
    prototype of [{}], so [(x || 0) + 1] concatenates; the object holds a
    string under [constructor] and no count, the test [count > 1] fails on
    it, and the modal shows no row and the message that no word repeats. *)
Theorem C4_word_named_like_a_prototype_property_gets_no_count :
  forall toLowerCase,
    LowersAscii toLowerCase ->
    forall settings,
      let text := u "Constructor constructor" in
      let wordFrequency := getWordFrequency toLowerCase settings text in
      occurrences toLowerCase (u "constructor") (words settings text) = 2
      /\ wordFrequency
         = [(u "constructor", Text (nativeSource (u "Object") ++ u "11"))]
      /\ (forall n, ~ In (u "constructor", Num n) (entries wordFrequency))
      /\ sortedWords wordFrequency = []
      /\ rows (onOpen wordFrequency) = []
      /\ message (onOpen wordFrequency)
         = Some (u "No words appear more than once in this document.")
      /\ getWordFrequency toLowerCase settings (u "The the THE cat")
         = [(u "the", Num 3); (u "cat", Num 1)]
      /\ sortedWords (getWordFrequency toLowerCase settings (u "The the THE cat"))
         = [(u "the", Num 3)].
Proof.
  intros toLowerCase L settings text wordFrequency.
  assert (W : words settings text = [u "Constructor"; u "constructor"])
    by (destruct settings as [[|] ex]; vm_compute; reflexivity).
  assert (X : wordFrequency
              = [(u "constructor", Text (nativeSource (u "Object") ++ u "11"))]).
  { unfold wordFrequency, text. destruct settings as [[|] ex];
      (rewrite getWordFrequency_ascii; [|exact L|]); vm_compute; reflexivity. }
  assert (Y : getWordFrequency toLowerCase settings (u "The the THE cat")
              = [(u "the", Num 3); (u "cat", Num 1)]).
  { destruct settings as [[|] ex];
      (rewrite getWordFrequency_ascii; [|exact L|]); vm_compute; reflexivity. }
  splits.
  - unfold occurrences. rewrite W. cbn [filter].
    rewrite (L (u "Constructor")), (L (u "constructor")) by reflexivity.
    reflexivity.
  - exact X.
  - rewrite X. intros n [H|[]]. discriminate H.
  - rewrite X. reflexivity.
  - rewrite X. reflexivity.
  - rewrite X. reflexivity.
  - exact Y.
  - rewrite Y. reflexivity.
Qed.

Lemma C4_word_named_like_a_prototype_property_gets_no_count_witness :
  getWordFrequency asciiToLowerCase DEFAULT_SETTINGS (u "Constructor constructor")
  = [(u "constructor", Text (nativeSource (u "Object") ++ u "11"))]
  /\ sortedWords
       (getWordFrequency asciiToLowerCase DEFAULT_SETTINGS
          (u "Constructor constructor"))
     = [].
Proof.
  split;
    apply (C4_word_named_like_a_prototype_property_gets_no_count
             LowersAscii_asciiToLowerCase DEFAULT_SETTINGS).
Defined.

(** C9: for a text whose only word is [__proto__] the object stays empty,
    since the write [wordFrequency["__proto__"] = ...] reaches the setter of
    [Object.prototype], which drops a string; the counts add up to 0 and
    the word count is 1.  For the word [constructor] the read finds the
    function [Object], and the entry becomes a string, not a count. *)
Theorem C9_prototype_names_are_not_counted :
  forall toLowerCase,
    LowersAscii toLowerCase ->
    forall settings,
      getWordFrequency toLowerCase settings (u "__proto__") = []
      /\ totalCount (getWordFrequency toLowerCase settings (u "__proto__")) = 0%N
      /\ countWords settings (u "__proto__") = 1
      /\ getWordFrequency toLowerCase settings (u "Constructor constructor")
         = [(u "constructor", Text (nativeSource (u "Object") ++ u "11"))]
      /\ totalCount (getWordFrequency toLowerCase settings
                       (u "Constructor constructor")) = 0%N
      /\ countWords settings (u "Constructor constructor") = 2.
Proof.
  intros toLowerCase L [[|] ex]; splits;
    try (rewrite getWordFrequency_ascii; [|exact L|]); vm_compute; reflexivity.
Qed.

Lemma C9_prototype_names_are_not_counted_witness :
  totalCount (getWordFrequency asciiToLowerCase DEFAULT_SETTINGS (u "__proto__"))
  = 0%N
  /\ countWords DEFAULT_SETTINGS (u "__proto__") = 1.
Proof.
  split;
    apply (C9_prototype_names_are_not_counted LowersAscii_asciiToLowerCase
             DEFAULT_SETTINGS).
Defined.

(** * Further properties *)

(** ** Word counts and the shape of the text *)

Lemma countWords_counted settings text :
  countWords settings text = length (filter (counted settings) (tokens text)).
Proof.
  rewrite countWords_words, words_tokens. unfold counted.
  destruct (countOnlyActualWords settings); auto.
  f_equal. induction (tokens text) as [|w l IH]; simpl; congruence.
Qed.

Lemma counted_cons settings a w :
  counted settings w = true -> counted settings (a :: w) = true.
Proof.
  unfold counted. destruct (countOnlyActualWords settings); auto.
  simpl. intros ->. apply orb_true_r.
Qed.

Lemma counted_app settings w run :
  counted settings w = true -> counted settings (w ++ run) = true.
Proof.
  unfold counted. destruct (countOnlyActualWords settings); auto.
  rewrite existsb_app. now intros ->.
Qed.

Lemma countWords_across_white_space_aux settings text1 a text2 :
  isWhiteSpace a = true ->
  countWords settings (text1 ++ a :: text2)
  = countWords settings text1 + countWords settings text2.
Proof.
  intros H. rewrite !countWords_counted.
  rewrite (tokens_separator text1 a text2 H), filter_app. apply length_app.
Qed.

(** X1: white space between two texts keeps their words apart: the count
    of the whole is the sum of the counts of the parts. *)
Theorem countWords_across_white_space :
  forall settings text1 a text2,
    isWhiteSpace a = true ->
    countWords settings (text1 ++ a :: text2)
    = countWords settings text1 + countWords settings text2.
Proof.
  intros settings text1 a text2 H.
  now apply countWords_across_white_space_aux.
Qed.

Lemma countWords_across_white_space_witness :
  countWords DEFAULT_SETTINGS (u "one two" ++ LF :: u "three 4")
  = countWords DEFAULT_SETTINGS (u "one two")
    + countWords DEFAULT_SETTINGS (u "three 4").
Proof.
  apply (@countWords_across_white_space DEFAULT_SETTINGS (u "one two") LF
           (u "three 4")).
  reflexivity.
Defined.

Lemma tokensFrom_head cur :
  cur <> [] ->
  forall y, exists run rest, tokensFrom cur y = (rev cur ++ run) :: rest.
Proof.
  intros Hc y. revert cur Hc. induction y as [|b y IH]; intros cur Hc.
  - destruct cur; [contradiction|]. exists [], []. simpl. now rewrite app_nil_r.
  - simpl. destruct (isWhiteSpace b).
    + destruct cur; [contradiction|]. exists [], (tokensFrom [] y).
      now rewrite app_nil_r.
    + destruct (IH (b :: cur)) as [run [rest E]]; [discriminate|].
      exists (b :: run), rest. rewrite E. simpl. now rewrite <- app_assoc.
Qed.

Lemma tokensFrom_grow a cur :
  cur <> [] ->
  forall y, exists w rest,
    tokensFrom cur y = w :: rest /\ tokensFrom (cur ++ [a]) y = (a :: w) :: rest.
Proof.
  intros Hc y. revert cur Hc. induction y as [|b y IH]; intros cur Hc.
  - destruct cur as [|c cur]; [contradiction|]. exists (rev (c :: cur)), [].
    split; auto. simpl. destruct (cur ++ [a]) eqn:E.
    + destruct cur; discriminate.
    + rewrite <- E. now rewrite rev_app_distr.
  - simpl. destruct (isWhiteSpace b).
    + destruct cur as [|c cur]; [contradiction|].
      exists (rev (c :: cur)), (tokensFrom [] y). split; auto.
      simpl. destruct (cur ++ [a]) eqn:E.
      * destruct cur; discriminate.
      * rewrite <- E. now rewrite rev_app_distr.
    + destruct (IH (b :: cur)) as [w [rest [E1 E2]]]; [discriminate|].
      exists w, rest. split; auto.
Qed.

Lemma count_prepend settings a y :
  length (filter (counted settings) (tokens y))
  <= length (filter (counted settings) (tokens (a :: y))).
Proof.
  unfold tokens. cbn [tokensFrom]. destruct (isWhiteSpace a) eqn:W; auto.
  destruct y as [|b y'].
  - simpl. lia.
  - cbn [tokensFrom]. destruct (isWhiteSpace b) eqn:Wb.
    + simpl. destruct (counted settings [a]); simpl; lia.
    + destruct (@tokensFrom_grow a [b]) with (y := y') as [w [rest [E1 E2]]];
        [discriminate|].
      simpl in E2. rewrite E1, E2. simpl.
      destruct (counted settings w) eqn:C.
      * rewrite (counted_cons settings a w C). simpl. lia.
      * destruct (counted settings (a :: w)); simpl; lia.
Qed.

Lemma count_prefix settings x y :
  length (filter (counted settings) (tokens y))
  <= length (filter (counted settings) (tokens (x ++ y))).
Proof.
  induction x as [|a x IH]; simpl; auto.
  etransitivity; [exact IH|]. apply count_prepend.
Qed.

Lemma count_suffix settings y :
  forall x cur,
    length (filter (counted settings) (tokensFrom cur x))
    <= length (filter (counted settings) (tokensFrom cur (x ++ y))).
Proof.
  induction x as [|b x IH]; intros cur.
  - cbn [app]. destruct cur as [|c cur]; [simpl; lia|].
    destruct (@tokensFrom_head (c :: cur)) with (y := y) as [run [rest E]];
      [discriminate|].
    assert (E0 : tokensFrom (c :: cur) [] = [rev (c :: cur)]) by reflexivity.
    rewrite E0, E. cbn [filter].
    destruct (counted settings (rev (c :: cur))) eqn:C.
    + rewrite (counted_app settings _ run C). cbn [length]. lia.
    + cbn [length]. lia.
  - cbn [app tokensFrom]. destruct (isWhiteSpace b).
    + destruct cur as [|c cur]; [apply IH|]. cbn [filter].
      destruct (counted settings (rev (c :: cur))); cbn [length];
        [apply le_n_S|]; apply IH.
    + apply IH.
Qed.

(** X2: a piece cut out of a text never has more words than the text: the
    count of a selection is at most the count of the document it is taken
    from. *)
Theorem countWords_of_a_part :
  forall settings before_ part after_,
    countWords settings part <= countWords settings (before_ ++ part ++ after_).
Proof.
  intros settings before_ part after_. rewrite !countWords_counted.
  etransitivity; [apply (count_suffix settings after_ part [])|].
  apply count_prefix.
Qed.

Lemma tokensFrom_length s :
  forall cur,
    2 * length (tokensFrom cur s)
    <= length s + 1 + match cur with [] => 0 | _ => 1 end.
Proof.
  induction s as [|b s IH]; intros cur; simpl.
  - destruct cur; simpl; lia.
  - destruct (isWhiteSpace b).
    + destruct cur; simpl; specialize (IH []); simpl in IH; lia.
    + specialize (IH (b :: cur)). simpl in IH. destruct cur; lia.
Qed.

(** X3: a word takes a code unit and a separator takes one between two
    words, so a text of [n] code units has at most [(n + 1) / 2] words. *)
Theorem countWords_at_most_half_the_length :
  forall settings text, 2 * countWords settings text <= length text + 1.
Proof.
  intros settings text. rewrite countWords_counted.
  pose proof (filter_length_le (counted settings) (tokens text)) as F.
  pose proof (tokensFrom_length text []) as L. simpl in L.
  unfold tokens in *. lia.
Qed.

(** ** What the frontmatter stripper removes *)

Lemma startsWith_app p :
  forall s, startsWith p s = true -> s = p ++ skipn (length p) s.
Proof.
  induction p as [|c p IH]; intros s H; [reflexivity|].
  destruct s as [|a s]; [discriminate|]. simpl in H.
  apply andb_true_iff in H. destruct H as [E H]. apply N.eqb_eq in E. subst a.
  simpl. f_equal. now apply IH.
Qed.

Lemma matchAt_frontMatter_start b s :
  (atLineStart b && startsWith (u "---") s)%bool = false ->
  matchAt frontMatterRegex (mkState b s) = None.
Proof.
  intros H. unfold matchAt. rewrite frontMatterRegex_parts.
  rewrite matcher_Seq, matcher_LineStart.
  assert (G : atLineStart b = true ->
              matcher (Seq (Str (u "---"))
                         (Seq (Star (Class isWhiteSpace))
                            (Seq (Chr LF) (Seq (LazyStar lineRegex) delimiterRegex))))
                (mkState b s) Some = None).
  { intros A. rewrite A in H. cbn [andb] in H. rewrite matcher_Seq, matcher_Str.
    now rewrite H. }
  destruct b as [|a b']; [now apply G|].
  cbn [andb]. destruct (isLineTerminator a) eqn:L; auto.
Qed.

Lemma execFrom_no_line_start s :
  forall b, someLineStartsWithDashes (atLineStart b) s = false ->
            execFrom frontMatterRegex b s = None.
Proof.
  induction s as [|a s IH]; intros b H; cbn [execFrom].
  - rewrite matchAt_frontMatter_start; auto. now rewrite andb_false_r.
  - cbn [someLineStartsWithDashes] in H. apply orb_false_iff in H.
    destruct H as [H1 H2]. rewrite (matchAt_frontMatter_start b (a :: s) H1).
    apply IH. exact H2.
Qed.

(** X4: a text none of whose lines begins with [---] is returned as it
    is. *)
Theorem removeFrontMatter_without_dashed_line :
  forall text,
    someLineStartsWithDashes true text = false -> removeFrontMatter text = text.
Proof.
  intros text H. apply removeFrontMatter_no_match. unfold exec.
  now apply (execFrom_no_line_start text []).
Qed.

Lemma removeFrontMatter_without_dashed_line_witness :
  removeFrontMatter (u "no frontmatter here" ++ LF :: u "a --- b" ++ LF :: u "-- -")
  = u "no frontmatter here" ++ LF :: u "a --- b" ++ LF :: u "-- -".
Proof.
  apply (removeFrontMatter_without_dashed_line
           (u "no frontmatter here" ++ LF :: u "a --- b" ++ LF :: u "-- -")).
  reflexivity.
Defined.

Lemma matcher_Seq_step r1 r2 x c z :
  matcher (Seq r1 r2) x c = Some z ->
  exists y, extends x y /\ matcher r2 y c = Some z.
Proof.
  rewrite matcher_Seq. intros H. apply matcher_consumes in H.
  destruct H as [y [Hy [_ H]]]. eauto.
Qed.

(** A match of the pattern starts at the start of a line, begins with
    [---] and ends with LF. *)
Lemma matchAt_frontMatter_shape b s y :
  matchAt frontMatterRegex (mkState b s) = Some y ->
  atLineStart b = true
  /\ exists m, s = u "---" ++ m ++ LF :: after y.
Proof.
  intros H.
  destruct (atLineStart b && startsWith (u "---") s)%bool eqn:A;
    [|rewrite (matchAt_frontMatter_start b s A) in H; discriminate].
  apply andb_true_iff in A. destruct A as [A S]. split; auto.
  unfold matchAt in H. rewrite frontMatterRegex_parts in H.
  rewrite matcher_Seq, matcher_LineStart in H.
  assert (H' : matcher (Seq (Str (u "---"))
                          (Seq (Star (Class isWhiteSpace))
                             (Seq (Chr LF) (Seq (LazyStar lineRegex) delimiterRegex))))
                 (mkState b s) Some = Some y).
  { destruct b as [|a b']; auto. simpl in A. now rewrite A in H. }
  clear H. rewrite matcher_Seq, matcher_Str, S in H'.
  apply matcher_Seq_step in H'. destruct H' as [y1 [E1 H]].
  apply matcher_Seq_step in H. destruct H as [y2 [E2 H]].
  apply matcher_Seq_step in H. destruct H as [y3 [E3 H]].
  unfold delimiterRegex in H.
  apply matcher_Seq_step in H. destruct H as [y4 [E4 H]].
  apply matcher_Seq_step in H. destruct H as [y5 [E5 H]].
  destruct y5 as [b5 s5]. rewrite matcher_Chr in H.
  destruct s5 as [|a rest]; [discriminate|].
  destruct (char_eqb a LF) eqn:EL; [|discriminate].
  apply N.eqb_eq in EL. subst a. inversion H; subst y. clear H.
  pose proof (extends_trans E1 (extends_trans E2 (extends_trans E3
                (extends_trans E4 E5)))) as E.
  destruct E as [m [Em _]]. cbn [after] in Em. exists m. cbn [after].
  rewrite (startsWith_app (u "---") s S) at 1. now rewrite Em.
Qed.

Lemma atLineStart_rev b :
  atLineStart b = true ->
  rev b = [] \/ exists pre a, rev b = pre ++ [a] /\ isLineTerminator a = true.
Proof.
  destruct b as [|a b]; simpl; auto. intros H. right. eauto.
Qed.

Lemma removeFrontMatter_piece text :
  removeFrontMatter text = text
  \/ exists pre m post,
       text = pre ++ (u "---" ++ m ++ [LF]) ++ post
       /\ removeFrontMatter text = pre ++ post
       /\ (pre = [] \/ exists pre' a, pre = pre' ++ [a]
                                      /\ isLineTerminator a = true).
Proof.
  unfold removeFrontMatter, replace.
  destruct (exec frontMatterRegex text) as [[x y]|] eqn:E; auto.
  right. apply execFrom_spec in E. destruct E as [I M]. simpl in I.
  destruct x as [b s]. apply matchAt_frontMatter_shape in M.
  destruct M as [A [m Hs]]. unfold input in I. simpl in I.
  exists (rev b), m, (after y). splits.
  - rewrite <- I, Hs. simpl. now rewrite <- !app_assoc.
  - reflexivity.
  - now apply atLineStart_rev.
Qed.

(** X5: whenever [removeFrontMatter] changes a text, it deletes one piece
    of it: the piece begins at the start of the text or right after a line
    terminator, begins with [---] and ends with LF; what stands before and
    after the piece is kept as it is. *)
Theorem removeFrontMatter_deletes_one_piece :
  forall text,
    removeFrontMatter text = text
    \/ exists pre m post,
         text = pre ++ (u "---" ++ m ++ [LF]) ++ post
         /\ removeFrontMatter text = pre ++ post
         /\ (pre = [] \/ exists pre' a, pre = pre' ++ [a]
                                        /\ isLineTerminator a = true).
Proof. exact removeFrontMatter_piece. Qed.

Lemma isLineTerminator_isWhiteSpace a :
  isLineTerminator a = true -> isWhiteSpace a = true.
Proof.
  unfold isLineTerminator, isWhiteSpace, char_eqb. intros H.
  repeat (apply orb_true_iff in H; destruct H as [H|H]);
    apply N.eqb_eq in H; subst a; reflexivity.
Qed.

(** X6: stripping the frontmatter never raises the word count. *)
Theorem removeFrontMatter_never_adds_words :
  forall settings text,
    countWords settings (removeFrontMatter text) <= countWords settings text.
Proof.
  intros settings text.
  destruct (removeFrontMatter_piece text)
    as [E | [pre [m [post [T [R P]]]]]]; [rewrite E; lia|].
  rewrite R. rewrite T. destruct P as [P | [pre' [a [P L]]]]; subst pre.
  - cbn [app]. rewrite !countWords_counted. apply count_prefix.
  - apply isLineTerminator_isWhiteSpace in L.
    rewrite <- !app_assoc. cbn [app].
    rewrite !countWords_across_white_space_aux by exact L.
    apply Nat.add_le_mono_l. rewrite !countWords_counted.
    replace (u "---" ++ m ++ LF :: post) with ((u "---" ++ m ++ [LF]) ++ post)
      by (now rewrite <- !app_assoc).
    apply count_prefix.
Qed.

Lemma removeFrontMatter_block ws1 body ws2 rest :
  forallb isWhiteSpace ws1 = true ->
  forallb isBodyLine body = true ->
  forallb isWhiteSpace ws2 = true ->
  removeFrontMatter (u "---" ++ ws1 ++ LF :: linesText body
                     ++ u "---" ++ ws2 ++ LF :: rest)
  = dropBlankLines rest.
Proof.
  intros H1 Hb H2.
  pose proof (@matchAt_block [] ws1 body ws2 rest eq_refl H1 Hb H2) as M.
  unfold removeFrontMatter, replace, exec.
  destruct (matchAt frontMatterRegex
              (mkState [] (u "---" ++ ws1 ++ LF :: linesText body
                           ++ u "---" ++ ws2 ++ LF :: rest))) as [z|] eqn:Z;
    [|discriminate M].
  rewrite (execFrom_here _ _ _ Z). simpl in M. inversion M. reflexivity.
Qed.

Lemma skipBlank_prefix s :
  forall r, skipBlank s = Some r ->
            exists w, s = w ++ r /\ forallb isWhiteSpace w = true.
Proof.
  induction s as [|a s IH]; intros r H; [discriminate|].
  cbn [skipBlank] in H. destruct (isWhiteSpace a) eqn:W; [|discriminate].
  destruct (skipBlank s) as [r'|] eqn:S.
  - inversion H; subst r'. destruct (IH r eq_refl) as [w [E F]].
    exists (a :: w). split; [simpl; congruence|]. simpl. now rewrite W.
  - destruct (char_eqb a LF); [|discriminate]. inversion H; subst.
    exists [a]. split; auto. simpl. now rewrite W.
Qed.

Lemma tokens_after_white_space w r :
  forallb isWhiteSpace w = true -> tokens (w ++ r) = tokens r.
Proof.
  unfold tokens. induction w as [|a w IH]; intros H; auto.
  simpl in H. apply andb_true_iff in H. destruct H as [Ha Hw].
  simpl. rewrite Ha. auto.
Qed.

Lemma countWords_dropBlankLines settings s :
  countWords settings (dropBlankLines s) = countWords settings s.
Proof.
  unfold dropBlankLines. destruct (skipBlank s) as [r|] eqn:E; auto.
  destruct (skipBlank_prefix s E) as [w [Hs Hw]].
  rewrite !countWords_counted. rewrite Hs.
  now rewrite tokens_after_white_space.
Qed.

(** X7: the words of a leading frontmatter block are left out of the
    count, and only they: for a text that opens with a [---] line, goes on
    with lines that end in LF, and closes the block with a first further
    [---] line that ends in LF, the count of the stripped text is the count
    of what follows the block. *)
Theorem frontmatter_words_are_not_counted :
  forall settings ws1 body ws2 rest,
    forallb isWhiteSpace ws1 = true ->
    forallb isBodyLine body = true ->
    forallb isWhiteSpace ws2 = true ->
    countWords settings
      (removeFrontMatter (u "---" ++ ws1 ++ LF :: linesText body
                          ++ u "---" ++ ws2 ++ LF :: rest))
    = countWords settings rest.
Proof.
  intros settings ws1 body ws2 rest H1 Hb H2.
  rewrite (removeFrontMatter_block ws1 body ws2 rest H1 Hb H2).
  apply countWords_dropBlankLines.
Qed.

Lemma frontmatter_words_are_not_counted_witness :
  countWords DEFAULT_SETTINGS
    (removeFrontMatter
       (u "---" ++ [32%N] ++ LF :: linesText [u "title: My note"; u "tags: a b"]
        ++ u "---" ++ [] ++ LF :: LF :: u "Hello big world"))
  = countWords DEFAULT_SETTINGS (LF :: u "Hello big world").
Proof.
  apply (@frontmatter_words_are_not_counted DEFAULT_SETTINGS [32%N]
           [u "title: My note"; u "tags: a b"] [] (LF :: u "Hello big world"));
    reflexivity.
Defined.

(** ** The keys of the word-frequency object *)

Lemma assoc_keys (A : Type) (k : jsstring) (o : list (jsstring * A)) :
  existsb (jsstring_eqb k) (map fst o)
  = match assoc k o with Some _ => true | None => false end.
Proof.
  induction o as [|[k0 v] o IH]; simpl; auto.
  destruct (jsstring_eqb k k0); auto.
Qed.

Lemma set_keys k p (o : object) :
  map fst (set o k p)
  = if (existsb (jsstring_eqb k) (map fst o) || jsstring_eqb k protoKey)%bool
    then map fst o else map fst o ++ [k].
Proof.
  rewrite assoc_keys. unfold set. destruct (assoc k o).
  - apply update_keys.
  - simpl. destruct (jsstring_eqb k protoKey); auto.
    now rewrite map_app.
Qed.

Lemma distinct_seen ks :
  forall seen1 seen2,
    (forall k, existsb (jsstring_eqb k) seen1 = existsb (jsstring_eqb k) seen2) ->
    distinct seen1 ks = distinct seen2 ks.
Proof.
  induction ks as [|k ks IH]; intros seen1 seen2 H; simpl; auto.
  rewrite (H k). destruct (existsb (jsstring_eqb k) seen2); auto.
  f_equal. apply IH. intros k'. simpl. now rewrite H.
Qed.

Lemma fold_countWord_keys toLowerCase ws :
  forall o,
    map fst (fold_left (countWord toLowerCase) ws o)
    = map fst o
      ++ distinct (map fst o)
           (filter (fun k => negb (jsstring_eqb k protoKey)) (map toLowerCase ws)).
Proof.
  induction ws as [|w ws IH]; intros o; simpl.
  - now rewrite app_nil_r.
  - rewrite IH. unfold countWord. rewrite set_keys.
    destruct (jsstring_eqb (toLowerCase w) protoKey) eqn:P; simpl.
    + now rewrite orb_true_r.
    + rewrite orb_false_r.
      destruct (existsb (jsstring_eqb (toLowerCase w)) (map fst o)) eqn:E; auto.
      rewrite <- app_assoc. simpl. do 2 f_equal. apply distinct_seen.
      intros k. rewrite existsb_app. simpl. rewrite orb_false_r. apply orb_comm.
Qed.

(** The own properties of the object are created in the order in which
    the lower-cased words first occur; [__proto__] is never created. *)
Lemma getWordFrequency_creation_order toLowerCase settings text :
  map fst (getWordFrequency toLowerCase settings text)
  = distinct []
      (filter (fun k => negb (jsstring_eqb k protoKey))
              (map toLowerCase (words settings text))).
Proof.
  rewrite getWordFrequency_words.
  apply (fold_countWord_keys toLowerCase (words settings text) []).
Qed.

(** ** The rows of the modal *)

Lemma getWordFrequency_Num toLowerCase settings text k n :
  In (k, Num n) (getWordFrequency toLowerCase settings text) ->
  isPrototypeName k = false
  /\ n = N.of_nat (occurrences toLowerCase k (words settings text))
  /\ 0 < occurrences toLowerCase k (words settings text).
Proof.
  intros H. rewrite getWordFrequency_words in H.
  apply In_assoc in H; [|apply fold_countWord_NoDup].
  rewrite fold_countWord_expected in H. unfold expected in H.
  unfold isPrototypeName.
  destruct (occurrences toLowerCase k (words settings text)); [discriminate|].
  destruct (assoc k objectPrototypeMethods); [discriminate|].
  destruct (jsstring_eqb k protoKey); [discriminate|].
  inversion H. splits; auto. lia.
Qed.

Lemma getWordFrequency_In toLowerCase settings text k :
  isPrototypeName k = false ->
  0 < occurrences toLowerCase k (words settings text) ->
  In (k, Num (N.of_nat (occurrences toLowerCase k (words settings text))))
     (getWordFrequency toLowerCase settings text).
Proof.
  intros P O. apply assoc_In.
  rewrite getWordFrequency_words, fold_countWord_expected.
  unfold expected. unfold isPrototypeName in P.
  destruct (occurrences toLowerCase k (words settings text)); [lia|].
  destruct (assoc k objectPrototypeMethods); [discriminate|].
  now rewrite P.
Qed.

Lemma filter_nil (A : Type) (f : A -> bool) l :
  (forall a, In a l -> f a = false) -> filter f l = [].
Proof.
  induction l as [|a l IH]; intros H; simpl; auto.
  rewrite (H a) by (now left). apply IH. intros b Hb. apply H. now right.
Qed.

(** X9: the modal shows its message, and no row, exactly when no
    lower-cased word occurs more than once, the names that
    [Object.prototype] holds apart. *)
Theorem modal_message_when_no_word_repeats :
  forall toLowerCase settings text,
    let modal := onOpen (getWordFrequency toLowerCase settings text) in
    (message modal
     = Some (u "No words appear more than once in this document.")
     /\ rows modal = [])
    <-> (forall k, isPrototypeName k = false ->
                   occurrences toLowerCase k (words settings text) <= 1).
Proof.
  intros toLowerCase settings text modal. unfold modal, onOpen. cbn [message rows].
  set (wf := getWordFrequency toLowerCase settings text).
  destruct (sortedWords_spec wf) as [P _].
  split.
  - intros [M _] k Pk.
    destruct (le_lt_dec (occurrences toLowerCase k (words settings text)) 1)
      as [L|L]; auto.
    exfalso.
    assert (I : In (k, Num (N.of_nat (occurrences toLowerCase k
                                        (words settings text))))
                   (filter moreThanOnce wf)).
    { apply filter_In. split.
      - apply getWordFrequency_In; auto. lia.
      - unfold moreThanOnce. simpl. apply N.ltb_lt. lia. }
    apply (Permutation_in _ (Permutation_sym P)) in I.
    destruct (sortedWords wf); [inversion I | discriminate M].
  - intros H.
    assert (F : filter moreThanOnce wf = []).
    { apply filter_nil. intros [k [n|s]] I; auto.
      apply getWordFrequency_Num in I. destruct I as [Pk [E _]].
      specialize (H k Pk). unfold moreThanOnce. simpl. apply N.ltb_ge. lia. }
    rewrite F in P. apply Permutation_sym, Permutation_nil in P. now rewrite P.
Qed.

Lemma totalCount_filter f (o : object) :
  (totalCount (filter f o) <= totalCount o)%N.
Proof.
  induction o as [|e o IH]; simpl; [lia|]. destruct (f e); simpl; lia.
Qed.

Lemma totalCount_at_least_two (l : list (jsstring * prim)) :
  Forall (fun e => exists n, snd e = Num n /\ (1 < n)%N) l ->
  (2 * N.of_nat (length l) <= totalCount l)%N.
Proof.
  induction 1 as [|e l [n [E L]] _ IH]; simpl; [lia|].
  unfold countOf at 1. rewrite E. lia.
Qed.

Lemma NoDup_keys_filter (f : jsstring * prim -> bool) (o : object) :
  NoDup (map fst o) -> NoDup (map fst (filter f o)).
Proof.
  induction o as [|e o IH]; simpl; auto. intros N. inversion N; subst.
  destruct (f e); simpl; auto. constructor; auto.
  intros I. apply H1. apply in_map_iff in I. destruct I as [e' [E I]].
  apply filter_In in I. apply in_map_iff. exists e'. tauto.
Qed.

(** X10: every row of the modal shows a lower-cased word that occurs at
    least twice, with the number of its occurrences in decimal; no word
    has two rows; and there are at most half as many rows as the text has
    words. *)
Theorem modal_rows_show_repeated_words :
  forall toLowerCase settings text,
    let modal := onOpen (getWordFrequency toLowerCase settings text) in
    (forall word count,
       In (word, count) (rows modal) ->
       2 <= occurrences toLowerCase word (words settings text)
       /\ count = numberToString
                    (N.of_nat (occurrences toLowerCase word (words settings text))))
    /\ NoDup (map fst (rows modal))
    /\ 2 * length (rows modal) <= countWords settings text.
Proof.
  intros toLowerCase settings text modal. unfold modal, onOpen. cbn [rows].
  set (wf := getWordFrequency toLowerCase settings text).
  destruct (sortedWords_spec wf) as [P [F _]].
  splits.
  - intros word count I. apply in_map_iff in I.
    destruct I as [[k p] [E I]]. simpl in E. inversion E; subst. clear E.
    pose proof I as I0. rewrite Forall_forall in F.
    destruct (F _ I) as [n [En Ln]]. simpl in En. subst p.
    apply (Permutation_in _ P) in I0. apply filter_In in I0.
    destruct I0 as [I0 _]. apply getWordFrequency_Num in I0.
    destruct I0 as [_ [E _]]. simpl. split; [lia | now rewrite E].
  - rewrite map_map. simpl.
    apply (Permutation_NoDup (Permutation_map fst (Permutation_sym P))).
    apply NoDup_keys_filter. unfold wf. rewrite getWordFrequency_words.
    apply fold_countWord_NoDup.
  - rewrite length_map.
    pose proof (totalCount_at_least_two F) as T.
    rewrite (totalCount_Permutation P) in T.
    pose proof (totalCount_filter moreThanOnce wf) as T2.
    pose proof (totalCount_getWordFrequency toLowerCase settings text) as T3.
    fold wf in T3. lia.
Qed.

(** ** The status bar over time *)

Lemma wordsLabel_ends_in_s wordCount :
  exists l, rev (wordsLabel wordCount) = 115%N :: l.
Proof.
  unfold wordsLabel. rewrite rev_app_distr. simpl. eauto.
Qed.

Lemma wordsLabel_not_No_editor wordCount : wordsLabel wordCount <> u "No editor".
Proof.
  intros E. destruct (wordsLabel_ends_in_s wordCount) as [l H].
  rewrite E in H. discriminate H.
Qed.

Lemma wordsLabel_not_placeholder wordCount : wordsLabel wordCount <> u "Words: 0".
Proof.
  intros E. destruct (wordsLabel_ends_in_s wordCount) as [l H].
  rewrite E in H. discriminate H.
Qed.

(** X11: after [onload] and any sequence of events the status bar reads
    [No editor] exactly when there is no active Markdown view, and the text
    [Words: 0] that [onload] first puts there is never what it reads. *)
Theorem status_bar_tells_whether_an_editor_is_active :
  forall loaded view events,
    let this := run (onload loaded view) events in
    (statusBarItem this = u "No editor" <-> activeView this = None)
    /\ statusBarItem this <> u "Words: 0".
Proof.
  intros loaded view events this.
  pose proof (run_upToDate events (onload_upToDate loaded view)) as U.
  fold this in U. unfold upToDate, expectedLabel in U. rewrite U.
  destruct (activeView this) as [editor|].
  - destruct (existsb notWhiteSpace (getSelection editor)); split;
      try (split; [intros E; now apply wordsLabel_not_No_editor in E | discriminate]);
      apply wordsLabel_not_placeholder.
  - split; [tauto | discriminate].
Qed.

Lemma countWords_excludeFrontmatter c e1 e2 text :
  countWords (mkSettings c e1) text = countWords (mkSettings c e2) text.
Proof. reflexivity. Qed.

(** X12: while the selection holds a code unit that is no white space,
    switching [excludeFrontmatter] on or off leaves the status bar as it
    is. *)
Theorem excludeFrontmatter_toggle_leaves_selection_count :
  forall loaded view events value editor,
    let this := run (onload loaded view) events in
    activeView this = Some editor ->
    existsb notWhiteSpace (getSelection editor) = true ->
    statusBarItem (handle this (SetExcludeFrontmatter value))
    = statusBarItem this.
Proof.
  intros loaded view events value editor this V S.
  pose proof (run_upToDate events (onload_upToDate loaded view)) as U.
  fold this in U. unfold upToDate in U. rewrite U.
  pose proof (handle_upToDate this (SetExcludeFrontmatter value)) as H.
  unfold upToDate in H. rewrite H. cbn [handle].
  match goal with
  | |- context [updateWordCount ?p] =>
      destruct (updateWordCount_spec p) as [Es [Ev _]]; rewrite Es, Ev
  end.
  cbn [withSettings settings activeView]. rewrite V. cbn [expectedLabel].
  rewrite S. destruct (settings this) as [c e]. reflexivity.
Qed.

Lemma excludeFrontmatter_toggle_leaves_selection_count_witness :
  let editor := mkEditor (u "---" ++ LF :: u "a" ++ LF :: u "---" ++ LF :: u "b c")
                         (u "---" ++ LF :: u "a" ++ LF :: u "---" ++ LF :: u "b c") in
  statusBarItem
    (handle (run (onload DEFAULT_SETTINGS (Some editor)) [])
            (SetExcludeFrontmatter false))
  = statusBarItem (run (onload DEFAULT_SETTINGS (Some editor)) []).
Proof.
  intros editor.
  apply (@excludeFrontmatter_toggle_leaves_selection_count
           DEFAULT_SETTINGS (Some editor) [] false editor); reflexivity.
Defined.

(** ** The modal and the document *)

Lemma words_dropBlankLines settings s :
  words settings (dropBlankLines s) = words settings s.
Proof.
  unfold dropBlankLines. destruct (skipBlank s) as [r|] eqn:E; auto.
  destruct (skipBlank_prefix s E) as [w [Hs Hw]].
  rewrite !words_tokens. rewrite Hs.
  now rewrite tokens_after_white_space.
Qed.

(** X15: with [excludeFrontmatter] on, the modal of a document that opens
    with a frontmatter block is the modal of the text after the block: the
    words of the block are not in the table, and neither the selection nor
    the status bar plays a part. *)
Theorem modal_leaves_out_the_frontmatter :
  forall toLowerCase actual selection status ws1 body ws2 rest,
    forallb isWhiteSpace ws1 = true ->
    forallb isBodyLine body = true ->
    forallb isWhiteSpace ws2 = true ->
    showWordFrequencyModal toLowerCase
      (mkPlugin (mkSettings actual true)
         (Some (mkEditor selection
                  (u "---" ++ ws1 ++ LF :: linesText body
                   ++ u "---" ++ ws2 ++ LF :: rest)))
         status)
    = Some (onOpen (getWordFrequency toLowerCase (mkSettings actual true) rest)).
Proof.
  intros toLowerCase actual selection status ws1 body ws2 rest H1 Hb H2.
  unfold showWordFrequencyModal. cbn [activeView settings getValue excludeFrontmatter].
  rewrite (removeFrontMatter_block ws1 body ws2 rest H1 Hb H2).
  rewrite !getWordFrequency_words. now rewrite words_dropBlankLines.
Qed.

Lemma modal_leaves_out_the_frontmatter_witness :
  showWordFrequencyModal asciiToLowerCase
    (mkPlugin DEFAULT_SETTINGS
       (Some (mkEditor (u "tags")
                (u "---" ++ [] ++ LF :: linesText [u "tags: tags tags"]
                 ++ u "---" ++ [] ++ LF :: u "so it goes so it goes")))
       (u "5 words"))
  = Some (onOpen (getWordFrequency asciiToLowerCase DEFAULT_SETTINGS
                    (u "so it goes so it goes"))).
Proof.
  apply (@modal_leaves_out_the_frontmatter asciiToLowerCase true (u "tags")
           (u "5 words") [] [u "tags: tags tags"] [] (u "so it goes so it goes"));
    reflexivity.
Defined.

Lemma sortInsert_keeps_ties (n : N) x l :
  filter (fun e => N.eqb (countOf e) n) (sortInsert byCountDescending x l)
  = filter (fun e => N.eqb (countOf e) n) (x :: l).
Proof.
  induction l as [|y l IH]; [reflexivity|].
  cbn [sortInsert]. destruct (Z.ltb 0 (byCountDescending x y)) eqn:C; auto.
  cbn [filter] in *. rewrite IH.
  apply Z.ltb_lt in C.
  assert (D : countOf x <> countOf y).
  { unfold byCountDescending, countOf in *.
    destruct (snd x), (snd y); try lia. }
  destruct (N.eqb (countOf y) n) eqn:Ey; auto.
  destruct (N.eqb (countOf x) n) eqn:Ex; auto.
  apply N.eqb_eq in Ex, Ey. congruence.
Qed.

(** X16: the sort of the modal does not reorder rows of equal count: the
    rows with a given count stand in the order in which [Object.entries]
    lists the words. *)
Theorem modal_rows_of_equal_count_keep_their_order :
  forall toLowerCase settings text n,
    let wordFrequency := getWordFrequency toLowerCase settings text in
    filter (fun e => N.eqb (countOf e) n) (sortedWords wordFrequency)
    = filter (fun e => N.eqb (countOf e) n)
        (filter moreThanOnce (entries wordFrequency)).
Proof.
  intros toLowerCase settings text n wordFrequency. unfold sortedWords.
  induction (filter moreThanOnce (entries wordFrequency)) as [|x l IH];
    [reflexivity|].
  cbn [sort]. rewrite sortInsert_keeps_ties. cbn [filter]. now rewrite IH.
Qed.

(** ** The order of [Object.entries] *)

Lemma insertIndex_Forall (A : Type) (P : N * A -> Prop) e l :
  P e -> Forall P l -> Forall P (insertIndex e l).
Proof.
  intros He Hl. induction Hl as [|e' l He' Hl IH]; simpl.
  - now constructor.
  - destruct (N.ltb (fst e) (fst e')); repeat constructor; auto.
Qed.

Lemma indexEntries_index o :
  Forall (fun e => arrayIndex (fst (snd e)) = Some (fst e)) (indexEntries o).
Proof.
  induction o as [|[k v] o IH]; simpl; [constructor|].
  destruct (arrayIndex k) eqn:E; auto.
  apply insertIndex_Forall; auto.
Qed.

Lemma insertIndex_Sorted (A : Type) (e : N * A) l :
  Sorted (fun a b => (fst a <= fst b)%N) l ->
  Sorted (fun a b => (fst a <= fst b)%N) (insertIndex e l).
Proof.
  induction l as [|e' l IH]; intros S; simpl.
  - repeat constructor.
  - inversion S; subst. destruct (N.ltb (fst e) (fst e')) eqn:C.
    + apply N.ltb_lt in C. constructor; auto. constructor. lia.
    + apply N.ltb_ge in C. constructor; auto.
      destruct l as [|e'' l]; simpl.
      * now constructor.
      * destruct (N.ltb (fst e) (fst e'')); constructor; auto.
        inversion H2; subst. assumption.
Qed.

Lemma indexEntries_Sorted o :
  StronglySorted (fun a b => (fst a <= fst b)%N) (indexEntries o).
Proof.
  apply Sorted_StronglySorted; [intros a b c; lia|].
  induction o as [|[k v] o IH]; simpl; [constructor|].
  destruct (arrayIndex k); auto. now apply insertIndex_Sorted.
Qed.

Lemma index_keys_Sorted (l : list (N * (jsstring * prim))) :
  Forall (fun e => arrayIndex (fst (snd e)) = Some (fst e)) l ->
  StronglySorted (fun a b => (fst a <= fst b)%N) l ->
  StronglySorted (fun a b => (indexOf a <= indexOf b)%N)
    (map (fun e => fst (snd e)) l).
Proof.
  intros F S. induction S as [|e l S IH H]; simpl; [constructor|].
  inversion F as [|? ? Fe Fl]; subst. constructor; auto.
  apply Forall_forall. intros k Hk. apply in_map_iff in Hk.
  destruct Hk as [e' [Ek He']]. subst k.
  rewrite Forall_forall in H, Fl. specialize (H e' He'). specialize (Fl e' He').
  unfold indexOf. now rewrite Fe, Fl.
Qed.

Lemma isNamed_isIndexKey e : isNamed e = negb (isIndexKey (fst e)).
Proof. unfold isNamed, isIndexKey. now destruct (arrayIndex (fst e)). Qed.

Lemma keys_filter (f : jsstring -> bool) (o : object) :
  map fst (filter (fun e => f (fst e)) o) = filter f (map fst o).
Proof.
  induction o as [|e o IH]; simpl; auto. destruct (f (fst e)); simpl; congruence.
Qed.

Lemma entries_keys o :
  map fst (entries o)
  = map (fun e => fst (snd e)) (indexEntries o)
    ++ filter (fun k => negb (isIndexKey k)) (map fst o).
Proof.
  unfold entries. rewrite map_app, map_map. f_equal.
  rewrite <- keys_filter. f_equal. apply filter_ext. intros e.
  apply isNamed_isIndexKey.
Qed.

Lemma index_keys_Permutation o :
  Permutation (map (fun e => fst (snd e)) (indexEntries o))
              (filter isIndexKey (map fst o)).
Proof.
  rewrite <- map_map. rewrite (indexEntries_Permutation o).
  rewrite <- keys_filter.
  replace (filter (fun e => negb (isNamed e)) o)
    with (filter (fun e => isIndexKey (fst e)) o); auto.
  apply filter_ext. intros e. rewrite isNamed_isIndexKey.
  now rewrite negb_involutive.
Qed.

(** X8: [Object.entries] lists the object that [getWordFrequency] returns
    in this order: first the keys that are array indices, in ascending
    numeric order, then the other keys in the order in which they first
    occur in the text.  The keys are the lower-cased words, each once, and
    [__proto__] is never one of them. *)
Theorem getWordFrequency_entries_order :
  forall toLowerCase settings text,
    let keys := distinct []
                  (filter (fun k => negb (jsstring_eqb k protoKey))
                          (map toLowerCase (words settings text))) in
    exists indexKeys,
      map fst (entries (getWordFrequency toLowerCase settings text))
      = indexKeys ++ filter (fun k => negb (isIndexKey k)) keys
      /\ Permutation indexKeys (filter isIndexKey keys)
      /\ StronglySorted (fun a b => (indexOf a <= indexOf b)%N) indexKeys.
Proof.
  intros toLowerCase settings text keys.
  set (o := getWordFrequency toLowerCase settings text).
  assert (K : map fst o = keys)
    by apply getWordFrequency_creation_order.
  exists (map (fun e => fst (snd e)) (indexEntries o)). splits.
  - rewrite <- K. apply entries_keys.
  - rewrite <- K. apply index_keys_Permutation.
  - apply index_keys_Sorted.
    + apply indexEntries_index.
    + apply indexEntries_Sorted.
Qed.

Lemma entries_order_example :
  map fst (entries (getWordFrequency asciiToLowerCase (mkSettings false true)
                      (u "b 10 a 2 B")))
  = [u "2"; u "10"; u "b"; u "a"].
Proof. reflexivity. Qed.
